(** * Tic-Tac-Toe: the board state machine of [tic_tac_toe.py]

    A shallow embedding of [Board] (grid, turn, counter, win detection) and
    of the part of [TicTacToe] that validates a position entry before it
    reaches [Board.move], followed by the properties of the game played
    through them. *)

From stdpp Require Import base decidable option list strings gmap pretty relations.
From Stdlib Require Import ZArith Lia ZifyNat.

Local Open Scope string_scope.
Local Open Scope nat_scope.

(** ** Data model *)

(** [Player = str], [Players = tuple[Player, Player]],
    [Position = tuple[int, int]].  Python integers are unbounded, and a
    position handed to [Board.move] is not checked, so its components are
    arbitrary integers. *)
Abbreviation Player := string (only parsing).
Abbreviation Players := (string * string)%type (only parsing).
Abbreviation Position := (Z * Z)%type (only parsing).
Abbreviation Grid := (list (list string)) (only parsing).

(** The exceptions of the module that the board and the validation raise.
    [Win] is raised with the message [f"Player {mark!r} wins!"]; the model
    keeps the mark the message is built from.  [GameOver] always carries the
    same text.  [IndexError] is Python's own, raised by a list subscript out
    of range. *)
Inductive Exn : Type :=
| InvalidPosition (msg : string)
| GameOver
| Win (mark : Player)
| IndexError.

(** How a call ends: it returns, or it raises. *)
Inductive Completion : Type :=
| Normal
| Raise (e : Exn).

#[global] Instance Exn_eq_dec : EqDecision Exn.
Proof. solve_decision. Defined.
#[global] Instance Completion_eq_dec : EqDecision Completion.
Proof. solve_decision. Defined.

(** The attributes of a [Board] instance. *)
Record Board : Type := mkBoard {
  _grid : Grid;
  _turn : nat;
  _filled_squares : nat;
  _players : Players;
}.

#[global] Instance Board_eq_dec : EqDecision Board.
Proof. solve_decision. Defined.

(** ** Python subscripts *)

(** [l[i]] on a sequence of length [n]: indices [0 .. n-1] address the
    elements, [-n .. -1] alias them from the end, anything else raises
    [IndexError] ([None]). *)
Definition py_index (n : nat) (i : Z) : option nat :=
  if bool_decide (0 ≤ i < Z.of_nat n)%Z then Some (Z.to_nat i)
  else if bool_decide (- Z.of_nat n ≤ i < 0)%Z then Some (Z.to_nat (i + Z.of_nat n))
  else None.

(** [grid[row][col]] as an expression. *)
Definition grid_get (g : Grid) (pos : Position) : option string :=
  i ← py_index (length g) pos.1;
  r ← g !! i;
  j ← py_index (length r) pos.2;
  r !! j.

(** [grid[row][col] = v]: the row is fetched first, then its element is
    replaced in place; either subscript can raise and then nothing is
    written.  The rows are distinct list objects (built by a comprehension),
    so writing one row leaves the others alone. *)
Definition grid_set (g : Grid) (pos : Position) (v : string) : option Grid :=
  i ← py_index (length g) pos.1;
  r ← g !! i;
  j ← py_index (length r) pos.2;
  Some (<[i := <[j := v]> r]> g).

(** A read of a cell at a position known to exist (every position of
    [_AXES] and of [ALLOWED_POSITIONS] on the 3-by-3 grid that [reset_board]
    builds and [move] keeps, see [grid_3x3]). *)
Definition cell (g : Grid) (pos : Position) : string :=
  default " " (grid_get g pos).

(** [players[turn]] on the 2-tuple. *)
Definition players_at (ps : Players) (t : nat) : option Player :=
  [ps.1; ps.2] !! t.

(** ** Board *)

(** [Board._AXES]: the eight lines.  Each is a Python set of three
    positions; the code only tests membership in it and filters it, and
    the length and the set of values of what is filtered do not depend on
    the iteration order, so each is listed in the order it is written. *)
Definition _AXES : list (list Position) :=
  [ [(0, 0); (0, 1); (0, 2)];
    [(1, 0); (1, 1); (1, 2)];
    [(2, 0); (2, 1); (2, 2)];
    [(0, 0); (1, 0); (2, 0)];
    [(0, 1); (1, 1); (2, 1)];
    [(0, 2); (1, 2); (2, 2)];
    [(0, 0); (1, 1); (2, 2)];
    [(2, 0); (1, 1); (0, 2)] ]%Z.

(** The body of the loop of [_check_win] for one axis: [true] when the
    loop returns [True] at this axis, [false] when it [continue]s. *)
Definition axis_wins (g : Grid) (axis : list Position) : bool :=
  let vals := filter (λ x, cell g x ≠ " ") axis in
  if bool_decide (length vals < 3) then false
  else if bool_decide (1 < length (remove_dups (cell g <$> vals))) then false
  else true.

(** The [for axis in relevant_axes] loop. *)
Fixpoint check_axes (g : Grid) (axes : list (list Position)) : bool :=
  match axes with
  | [] => false
  | axis :: rest => if axis_wins g axis then true else check_axes g rest
  end.

Definition _check_win (b : Board) (pos : Position) : bool :=
  let relevant_axes := filter (λ axis, pos ∈ axis) _AXES in
  check_axes (_grid b) relevant_axes.

Definition reset_board (b : Board) : Board :=
  {| _grid := replicate 3 (replicate 3 " ");
     _turn := 0;
     _filled_squares := 0;
     _players := _players b |}.

(** [Board.__init__]: [reset_board()], then the players are stored. *)
Definition Board_init (players : Players) : Board :=
  {| _grid := replicate 3 (replicate 3 " ");
     _turn := 0;
     _filled_squares := 0;
     _players := players |}.

(** [int(not self._turn)]. *)
Definition flip_turn (t : nat) : nat :=
  if bool_decide (t = 0) then 1 else 0.

(** [Board.move].  The board is mutated in place, so what has been written
    before an exception is raised stays: the result is the board after the
    call together with how the call ended.  [display_board] only prints. *)
Definition move (b : Board) (pos : Position) : Board * Completion :=
  match players_at (_players b) (_turn b) with
  | None => (b, Raise IndexError)
  | Some mark =>
      match grid_set (_grid b) pos mark with
      | None => (b, Raise IndexError)
      | Some g =>
          let b1 := {| _grid := g;
                       _turn := _turn b;
                       _filled_squares := _filled_squares b + 1;
                       _players := _players b |} in
          if bool_decide (5 ≤ _filled_squares b1) && _check_win b1 pos
          then (b1, Raise (Win mark))
          else if bool_decide (_filled_squares b1 = 9)
          then (b1, Raise GameOver)
          else ({| _grid := g;
                   _turn := flip_turn (_turn b);
                   _filled_squares := _filled_squares b + 1;
                   _players := _players b |}, Normal)
      end
  end.

(** ** TicTacToe: validation of an entry *)

Definition ALLOWED_POSITIONS : gmap string Position :=
  list_to_map
    [ ("1", (0, 0)); ("2", (0, 1)); ("3", (0, 2));
      ("4", (1, 0)); ("5", (1, 1)); ("6", (1, 2));
      ("7", (2, 0)); ("8", (2, 1)); ("9", (2, 2)) ]%Z.

(** [TicTacToe._validate_move], reading the grid of [self._board]. *)
Definition _validate_move (b : Board) (pos : string) : Exn + Position :=
  match ALLOWED_POSITIONS !! pos with
  | None => inl (InvalidPosition "Position does not exist")
  | Some (row, col) =>
      if bool_decide (cell (_grid b) (row, col) ≠ " ")
      then inl (InvalidPosition "Position is occupied")
      else inr (row, col)
  end.

(** One position entry of the game loop: [_get_player_move] validates it
    (an [InvalidPosition] is displayed and the player is asked again, the
    board untouched), and [main] hands the validated position to
    [Board.move].  This path is the move application of the game. *)
Definition apply_move (b : Board) (entry : string) : Board * Completion :=
  match _validate_move b entry with
  | inl ex => (b, Raise ex)
  | inr pos => move b pos
  end.

(** A game in progress: the entries are applied in order, each has to be
    accepted and the move has to return (the game continues). *)
Fixpoint play (b : Board) (entries : list string) : option Board :=
  match entries with
  | [] => Some b
  | e :: rest =>
      match apply_move b e with
      | (b', Normal) => play b' rest
      | _ => None
      end
  end.

(** Any sequence of legal moves on one board: the entries are applied in
    order and each has to be accepted by the validation, whatever [move]
    then raises. *)
Fixpoint apply_all (b : Board) (entries : list string) : option Board :=
  match entries with
  | [] => Some b
  | e :: rest =>
      match _validate_move b e with
      | inl _ => None
      | inr pos => apply_all (move b pos).1 rest
      end
  end.

(** ** The 3-by-3 grid *)

Definition grid_3x3 (g : Grid) : Prop :=
  length g = 3 ∧ Forall (λ r, length r = 3) g.

Definition in_range (pos : Position) : Prop :=
  (0 ≤ pos.1 ≤ 2)%Z ∧ (0 ≤ pos.2 ≤ 2)%Z.

#[global] Instance grid_3x3_dec g : Decision (grid_3x3 g).
Proof. unfold grid_3x3. apply _. Defined.
#[global] Instance in_range_dec pos : Decision (in_range pos).
Proof. unfold in_range. apply _. Defined.

(** The nine cells, row by row. *)
Definition all_positions : list Position :=
  [ (0, 0); (0, 1); (0, 2); (1, 0); (1, 1); (1, 2); (2, 0); (2, 1); (2, 2) ]%Z.

(** The number of cells that hold a given mark, and the number of cells
    that are not blank. *)
Definition count_mark (m : string) (g : Grid) : nat :=
  length (filter (λ c, c = m) (concat g)).

Definition occupied (g : Grid) : nat :=
  length (filter (λ c, c ≠ " ") (concat g)).

(** The rows, the columns and the two diagonals of the grid. *)
Definition row (r : Z) : list Position := [(r, 0); (r, 1); (r, 2)]%Z.

Definition column (c : Z) : list Position := [(0, c); (1, c); (2, c)]%Z.

Definition diagonals : list (list Position) :=
  [ [(0, 0); (1, 1); (2, 2)]; [(2, 0); (1, 1); (0, 2)] ]%Z.

(** A line of the board that is full of one mark. *)
Definition line_of (g : Grid) (m : Player) (axis : list Position) : Prop :=
  Forall (λ x, cell g x = m) axis.

Definition completed (g : Grid) (m : Player) : Prop :=
  m ≠ " " ∧ Exists (line_of g m) _AXES.

#[global] Instance completed_dec g m : Decision (completed g m).
Proof. unfold completed, line_of. apply _. Defined.

(** The eight lines of the rules of the game: the three rows, the three
    columns and the two diagonals of the grid.  The table [_AXES] of the
    code is not used here. *)
Definition winning_lines : list (list Position) :=
  ((row <$> [0; 1; 2]%Z) ++ (column <$> [0; 1; 2]%Z) ++ diagonals)%list.

(** A row, a column or a diagonal is fully occupied with the mark [m]: its
    three cells hold [m], and they are not empty. *)
Definition three_in_line (g : Grid) (m : Player) : Prop :=
  m ≠ " " ∧ Exists (line_of g m) winning_lines.

(** ** Legal moves and the books of the board *)

(** A position that [_validate_move] lets through: a cell of the grid
    that is blank. *)
Definition legal (b : Board) (pos : Position) : Prop :=
  in_range pos ∧ cell (_grid b) pos = " ".

(** After [n] moves of a game the first player has made [(n + 1) / 2] of
    them and the second [n / 2]. *)
Definition mark_share (players : Players) (n : nat) (m : string) : nat :=
  if decide (m = players.1) then (n + 1) / 2
  else if decide (m = players.2) then n / 2
  else 0.

(** The counter and the grid agree, and each mark is on the board as often
    as its player has moved. *)
Definition counts_ok (players : Players) (b : Board) : Prop :=
  grid_3x3 (_grid b) ∧
  _players b = players ∧
  occupied (_grid b) = _filled_squares b ∧
  ∀ m, m ≠ " " → count_mark m (_grid b) = mark_share players (_filled_squares b) m.

(** A board on which the game continues. *)
Definition in_progress (players : Players) (b : Board) : Prop :=
  counts_ok players b ∧
  _turn b = _filled_squares b mod 2 ∧
  ∀ m, ¬ completed (_grid b) m.

(** Each mark other than the blank is on the board as often as its player
    has moved. *)
Definition shares_ok (players : Players) (b : Board) : Prop :=
  grid_3x3 (_grid b) ∧
  _players b = players ∧
  ∀ m, m ≠ " " → count_mark m (_grid b) = mark_share players (_filled_squares b) m.

(** A board on which the game continues, whether or not a player writes
    the blank. *)
Definition in_play (players : Players) (b : Board) : Prop :=
  shares_ok players b ∧
  _turn b = _filled_squares b mod 2 ∧
  ∀ m, ¬ completed (_grid b) m.


(** ** The brute-force evaluation *)

(** The mark that fills a line, if the line is fully occupied with one
    mark. *)
Definition line_mark (g : Grid) (axis : list Position) : option Player :=
  match axis with
  | [] => None
  | x :: _ =>
      if decide (Forall (λ y, cell g y ≠ " ") axis ∧
                 Forall (λ y, cell g y = cell g x) axis)
      then Some (cell g x) else None
  end.

(** The scan of all the lines of the board. *)
Fixpoint scan_lines (g : Grid) (axes : list (list Position)) : option Player :=
  match axes with
  | [] => None
  | axis :: rest =>
      match line_mark g axis with
      | Some m => Some m
      | None => scan_lines g rest
      end
  end.

(** The move application as the specification words it, with the
    simpler evaluation it allows: the mark of the current turn is written
    and the count incremented as in [move]; then all eight lines of the
    board are scanned, at every move; a line fully occupied with one mark
    gives a win of that mark, otherwise a full grid gives a draw, otherwise
    the game continues and the turn flips. *)
Definition move_brute (b : Board) (pos : Position) : Board * Completion :=
  match players_at (_players b) (_turn b) with
  | None => (b, Raise IndexError)
  | Some mark =>
      match grid_set (_grid b) pos mark with
      | None => (b, Raise IndexError)
      | Some g =>
          let b1 := {| _grid := g;
                       _turn := _turn b;
                       _filled_squares := _filled_squares b + 1;
                       _players := _players b |} in
          match scan_lines g winning_lines with
          | Some m => (b1, Raise (Win m))
          | None =>
              if bool_decide (_filled_squares b1 = 9)
              then (b1, Raise GameOver)
              else ({| _grid := g;
                       _turn := flip_turn (_turn b);
                       _filled_squares := _filled_squares b + 1;
                       _players := _players b |}, Normal)
          end
      end
  end.

Definition apply_move_brute (b : Board) (entry : string) : Board * Completion :=
  match _validate_move b entry with
  | inl ex => (b, Raise ex)
  | inr pos => move_brute b pos
  end.

(** What the players see over a whole game, for a given move application:
    the completion of every entry, in order.  A rejected entry is asked
    again on the same board, a move that returns is followed by the next
    one, and a raised [Win] or [GameOver] ends the game. *)
Fixpoint outcomes (step : Board → string → Board * Completion)
    (b : Board) (entries : list string) : list Completion :=
  match entries with
  | [] => []
  | e :: rest =>
      let '(b', c) := step b e in
      c :: match c with
           | Normal | Raise (InvalidPosition _) => outcomes step b' rest
           | Raise _ => []
           end
  end.

(** ** Boards the code can build *)

(** The shape every board has: [reset_board] builds it and [move] keeps
    it, whatever position it is given and however it ends. *)
Definition well_formed (b : Board) : Prop :=
  grid_3x3 (_grid b) ∧ _turn b < 2.

#[global] Instance well_formed_dec b : Decision (well_formed b).
Proof. unfold well_formed. apply _. Defined.

(** The boards reached by any sequence of calls of the methods. *)
Inductive reachable : Board → Prop :=
| reachable_init players : reachable (Board_init players)
| reachable_reset b : reachable b → reachable (reset_board b)
| reachable_move b pos : reachable b → reachable (move b pos).1.

(** ** The counter *)

(** The counter equals the number of cells that are not blank. *)
Definition tally (players : Players) (b : Board) : Prop :=
  well_formed b ∧ _players b = players ∧ occupied (_grid b) = _filled_squares b.

(** The board after the write and the increment of [move], with the turn
    as [move] leaves it. *)
Definition written (b : Board) (g : Grid) (t : nat) : Board :=
  {| _grid := g; _turn := t;
     _filled_squares := _filled_squares b + 1; _players := _players b |}.

(** ** Concrete games *)

(** The marks of the scenarios of the specification, and a board of these
    players. *)
Definition XO : Players := ("X", "O").

Definition XO_board (g : Grid) (t n : nat) : Board :=
  {| _grid := g; _turn := t; _filled_squares := n; _players := XO |}.

(** ** The text interface *)

(** What the module takes from Python's [str] without defining it:
    [.lower()], [.strip()] and the [repr] that [!r] formats with. *)
Record Builtins : Type := mkBuiltins {
  str_lower : string → string;
  str_strip : string → string;
  str_repr : string → string;
}.

(** The exceptions that cross the text interface: those of the board and
    of the validation, [UserExit] and [Forfeit] of the module, and the
    [EOFError] that [input] raises when there is nothing left to read. *)
Inductive Interrupt : Type :=
| Exception (e : Exn)
| UserExit
| Forfeit
| EOFError.

Inductive Ending (A : Type) : Type :=
| Return (a : A)
| Throw (x : Interrupt).

Arguments Return {A} a.
Arguments Throw {A} x.

(** A run of a method over the standard input, given as the lines still
    to be read: how it ends, the lines it leaves unread, and what it has
    written to the standard output, one element for each [print] and each
    prompt of [input], in order. *)
Record Run (A : Type) : Type := mkRun {
  ending : Ending A;
  unread : list string;
  printed : list string;
}.

Arguments mkRun {A} ending unread printed.
Arguments ending {A} r.
Arguments unread {A} r.
Arguments printed {A} r.

#[global] Instance Interrupt_eq_dec : EqDecision Interrupt.
Proof. solve_decision. Defined.

(** The newline, and what a [print] of several parts with the empty
    separator writes. *)
Definition nl : string := String (Ascii.ascii_of_nat 10) "".

Definition print (parts : list string) : string :=
  String.concat "" parts +:+ nl.

(** [Board.display_board], as the list of what its [print]s write. *)
Definition display_board (b : Board) : list string :=
  let g := _grid b in
  (flat_map
    (λ i : Z,
       print [cell g (i, 0%Z); "|"; cell g (i, 1%Z); "|"; cell g (i, 2%Z)]
       :: (if bool_decide (i < 2)%Z then [print ["-"; "+"; "-"; "+"; "-"]] else []))
    [0; 1; 2]%Z
  ++ [print [nl]])%list.

(** What [Board.move] writes: it displays the board between the write of
    the mark and the increment of the counter, so it writes nothing when the
    write raises. *)
Definition move_display (b : Board) (pos : Position) : list string :=
  match players_at (_players b) (_turn b) with
  | None => []
  | Some mark =>
      match grid_set (_grid b) pos mark with
      | None => []
      | Some g =>
          display_board {| _grid := g; _turn := _turn b;
                           _filled_squares := _filled_squares b;
                           _players := _players b |}
      end
  end.

(** [TicTacToe._display_exception], given [str(ex)]. *)
Definition _display_exception (message : string) : list string :=
  [print [message]; print [nl]].

(** The text of [Win]: [f"Player {mark!r} wins!"]. *)
Definition win_message (py : Builtins) (mark : Player) : string :=
  "Player " +:+ str_repr py mark +:+ " wins!".

(** [TicTacToe._query_replay].  It resets the board of the game when it is
    asked for a rematch and the answer is "y"; the board after the call is
    returned with the answer. *)
Fixpoint _query_replay (py : Builtins) (rematch : bool) (b : Board)
    (ins : list string) : Run (bool * Board) :=
  let query := if negb rematch then "Play again? [y/n]: " else "Rematch? [y/n]: " in
  match ins with
  | [] => mkRun (Throw EOFError) [] [query]
  | line :: ins' =>
      let play_again := str_strip py (str_lower py line) in
      if decide (play_again = "y") then
        mkRun (Return (true, if rematch then reset_board b else b)) ins'
              [query; print [nl]]
      else if decide (play_again ∈ ["n"; "quit"]) then
        mkRun (Return (false, b)) ins' [query; print ["GOODBYE!"]]
      else
        let r := _query_replay py rematch b ins' in
        mkRun (ending r) (unread r) (query :: printed r)
  end.

(** Python's [len] of a [str] counts code points.  A line of the input is
    held as the bytes of its UTF-8 encoding, in which a byte of the form
    [10xxxxxx] continues a code point and every other byte starts one. *)
Definition continuation_byte (a : Ascii.ascii) : bool :=
  match a with
  | Ascii.Ascii _ _ _ _ _ _ b6 b7 => b7 && negb b6
  end.

Fixpoint py_len (s : string) : nat :=
  match s with
  | EmptyString => 0
  | String a rest => (if continuation_byte a then 0 else 1) + py_len rest
  end.

(** The loop of [TicTacToe._get_players]; [first] is the list [players]
    of the code, which is empty ([None], [i = 1]) or holds the first mark
    ([Some], [i = 2]) while the loop runs. *)
Fixpoint _get_players_loop (first : option Player) (ins : list string)
    : Run Players :=
  let i := if first is Some _ then 2 else 1 in
  let prompt := "Enter mark (player " +:+ pretty i +:+ "): " in
  match ins with
  | [] => mkRun (Throw EOFError) [] [prompt]
  | player :: ins' =>
      if decide (player = "quit") then mkRun (Throw UserExit) ins' [prompt]
      else if decide (py_len player ≠ 1) then
        let r := _get_players_loop first ins' in
        mkRun (ending r) (unread r)
              (prompt :: print ["Enter a mark with one value" +:+ nl] :: printed r)
      else
        match first with
        | None =>
            let r := _get_players_loop (Some player) ins' in
            mkRun (ending r) (unread r) (prompt :: printed r)
        | Some mark1 => mkRun (Return (mark1, player)) ins' [prompt]
        end
  end.

Definition _get_players (ins : list string) : Run Players :=
  _get_players_loop None ins.

(** [TicTacToe._get_player_move] on the board of the game. *)
Fixpoint _get_player_move (py : Builtins) (b : Board) (ins : list string)
    : Run Position :=
  let asked := [print ["Player " +:+ pretty (_turn b + 1)]; "Enter position: "] in
  match ins with
  | [] => mkRun (Throw EOFError) [] asked
  | line :: ins' =>
      let in_ := str_strip py (str_lower py line) in
      if decide (in_ = "quit") then mkRun (Throw UserExit) ins' asked
      else if decide (in_ = "ff") then mkRun (Throw Forfeit) ins' asked
      else
        match _validate_move b in_ with
        | inl (InvalidPosition msg) =>
            let r := _get_player_move py b ins' in
            mkRun (ending r) (unread r)
                  (asked ++ _display_exception msg ++ printed r)%list
        | inl ex => mkRun (Throw (Exception ex)) ins' asked
        | inr pos => mkRun (Return pos) ins' asked
        end
  end.

(** [TicTacToe.display_intro]. *)
Definition layout : string :=
  "Welcome to Tic-tac-toe." +:+ nl +:+
  "Below is the board's layout, with the positions in the squares." +:+ nl +:+
  "1|2|3" +:+ nl +:+
  "-+-+-" +:+ nl +:+
  "4|5|6" +:+ nl +:+
  "-+-+-" +:+ nl +:+
  "7|8|9" +:+ nl +:+
  "Enter a position as above, after setup to make a move." +:+ nl +:+
  "If there's no possibility of winning with a board's configuration, " +:+
  "enter 'ff' to forfeit the round." +:+ nl +:+
  "Enter 'quit' at any point in the game to exit." +:+ nl.

Definition display_intro : list string := [print [layout]].

(** How one pass through the body of the inner loop of [main] leaves it:
    back to the head of the loop with the board of the game, or by
    [break]. *)
Inductive Next : Type :=
| Again (b : Board)
| Break.

(** The end of a game in [main], after [Win] or [GameOver] was caught:
    the exception is displayed and the players are asked whether to play
    again. *)
Definition after_game (py : Builtins) (message : string) (b : Board)
    (ins : list string) (out : list string) : Run Next :=
  let q := _query_replay py false b ins in
  let out' := (out ++ _display_exception message ++ printed q)%list in
  match ending q with
  | Return (true, _) => mkRun (Return Break) (unread q) out'
  | Return (false, _) => mkRun (Throw UserExit) (unread q) out'
  | Throw x => mkRun (Throw x) (unread q) out'
  end.

(** One pass through the body of the inner [while True] of [main], on the
    board of the game. *)
Definition round_body (py : Builtins) (b : Board) (ins : list string) : Run Next :=
  let r := _get_player_move py b ins in
  match ending r with
  | Return pos =>
      let '(b', c) := move b pos in
      let out := (printed r ++ move_display b pos)%list in
      match c with
      | Normal => mkRun (Return (Again b')) (unread r) out
      | Raise (Win mark) => after_game py (win_message py mark) b' (unread r) out
      | Raise GameOver => after_game py "Game Over!" b' (unread r) out
      | Raise ex => mkRun (Throw (Exception ex)) (unread r) out
      end
  | Throw Forfeit =>
      let q := _query_replay py true b (unread r) in
      let out := (printed r ++ printed q)%list in
      match ending q with
      | Return (true, b') => mkRun (Return (Again b')) (unread q) (out ++ display_board b')%list
      | Return (false, _) => mkRun (Throw UserExit) (unread q) out
      | Throw x => mkRun (Throw x) (unread q) out
      end
  | Throw x => mkRun (Throw x) (unread r) (printed r)
  end.

(** The inner loop of [main]: the body is run until it breaks or raises.
    Every pass reads a line, so the number of lines left bounds the number
    of passes; [None] when [fuel] passes were not enough. *)
Fixpoint play_round (py : Builtins) (fuel : nat) (b : Board) (ins : list string)
    : option (Run unit) :=
  match fuel with
  | 0 => None
  | S fuel' =>
      let r := round_body py b ins in
      match ending r with
      | Return (Again b') =>
          s ← play_round py fuel' b' (unread r);
          Some (mkRun (ending s) (unread s) (printed r ++ printed s)%list)
      | Return Break => Some (mkRun (Return tt) (unread r) (printed r))
      | Throw x => Some (mkRun (Throw x) (unread r) (printed r))
      end
  end.

(** The outer loop of [main]: new players, a new board, a round, again.
    It has no [break]: the only way out is an exception. *)
Fixpoint main_loop (py : Builtins) (fuel : nat) (ins : list string)
    : option (Run Empty_set) :=
  match fuel with
  | 0 => None
  | S fuel' =>
      let p := _get_players ins in
      match ending p with
      | Throw x => Some (mkRun (Throw x) (unread p) (printed p))
      | Return players =>
          let b := Board_init players in
          let out := (printed p ++ display_board b)%list in
          s ← play_round py fuel' b (unread p);
          match ending s with
          | Throw x => Some (mkRun (Throw x) (unread s) (out ++ printed s)%list)
          | Return _ =>
              t ← main_loop py fuel' (unread s);
              Some (mkRun (ending t) (unread t) (out ++ printed s ++ printed t)%list)
          end
      end
  end.

(** [TicTacToe.main] on a finite input. *)
Definition main (py : Builtins) (ins : list string) : option (Run Empty_set) :=
  t ← main_loop py (S (length ins)) ins;
  Some (mkRun (ending t) (unread t) (display_intro ++ printed t)%list).

(** The boards on which the inner loop of [main] runs its body, from the
    board it starts on. *)
Definition round_step (py : Builtins) : relation (Board * list string) :=
  λ s s', let r := round_body py s.1 s.2 in
          ending r = Return (Again s'.1) ∧ unread r = s'.2.

(** Input that is typed as it is compared: nothing to lower or strip. *)
Definition as_typed : Builtins :=
  {| str_lower := id; str_strip := id;
     str_repr := λ s, "'" +:+ s +:+ "'" |}.


(** ** Predicates of the further properties *)

(** The boards of a game, for any two marks: the counter is at most 8
    and is at least the number of occupied cells. *)
Definition in_game (b : Board) : Prop :=
  well_formed b ∧ occupied (_grid b) ≤ _filled_squares b ∧ _filled_squares b ≤ 8.

(** The marks read so far by the loop of [_get_players]. *)
Definition marks_so_far (first : option Player) (lines : list string) : list Player :=
  (option_list first ++ filter (λ s, py_len s = 1) lines)%list.

(** A line as the methods compare it: lowered, then stripped. *)
Definition normalised (py : Builtins) (line : string) : string :=
  str_strip py (str_lower py line).

(** An entry that is asked again: not "quit", not "ff", and refused by the
    validation on the board. *)
Definition asked_again (py : Builtins) (b : Board) (line : string) : Prop :=
  normalised py line ≠ "quit" ∧ normalised py line ≠ "ff" ∧
  ∃ msg, _validate_move b (normalised py line) = inl (InvalidPosition msg).

(** A line that [_query_replay] does not take for an answer. *)
Definition no_answer (py : Builtins) (line : string) : Prop :=
  normalised py line ∉ ["y"; "n"; "quit"].


(** A run that has not met the end of the input is not changed by
    further lines behind it, which it leaves unread; a run that has met it
    was waiting for a line. *)
Definition unchanged_by {A} (f : list string → Run A) (ins extra : list string) : Prop :=
  ending (f (ins ++ extra)%list) = ending (f ins) ∧
  unread (f (ins ++ extra)%list) = (unread (f ins) ++ extra)%list.

(** * Properties *)

(** ** The scenarios of the specification *)

(** "X" fills the top row with the fifth move. *)
Example scenario_top_row :
  (b ← play (Board_init XO) ["1"; "5"; "2"; "4"]; Some (apply_move b "3").2)
  = Some (Raise (Win "X")).
Proof. vm_compute. reflexivity. Qed.

(** Nine moves without a full line. *)
Example scenario_draw :
  (b ← play (Board_init XO) ["1"; "2"; "3"; "5"; "4"; "6"; "8"; "7"];
   Some (apply_move b "9").2)
  = Some (Raise GameOver).
Proof. vm_compute. reflexivity. Qed.

Lemma grid_3x3_inv (g : Grid) :
  grid_3x3 g →
  ∃ a b c d e f h i j : string, g = [[a; b; c]; [d; e; f]; [h; i; j]].
Proof.
  intros [Hl Hr].
  destruct g as [|r0 [|r1 [|r2 [|? ?]]]]; simpl in Hl; try discriminate.
  apply Forall_cons in Hr as [H0 Hr].
  apply Forall_cons in Hr as [H1 Hr].
  apply Forall_cons in Hr as [H2 _].
  destruct r0 as [|a [|b [|c [|? ?]]]]; simpl in H0; try discriminate.
  destruct r1 as [|d [|e [|f [|? ?]]]]; simpl in H1; try discriminate.
  destruct r2 as [|h [|i [|j [|? ?]]]]; simpl in H2; try discriminate.
  by exists a, b, c, d, e, f, h, i, j.
Qed.

Lemma in_range_all_positions (pos : Position) :
  in_range pos ↔ pos ∈ all_positions.
Proof.
  split.
  - destruct pos as [r c]. intros [Hr Hc]. simpl in *.
    assert (r = 0 ∨ r = 1 ∨ r = 2)%Z as Hr' by lia.
    assert (c = 0 ∨ c = 1 ∨ c = 2)%Z as Hc' by lia.
    unfold all_positions.
    destruct Hr' as [-> | [-> | ->] ], Hc' as [-> | [-> | ->] ];
      repeat (first [ apply list_elem_of_here | apply list_elem_of_further ]).
  - intros H. unfold all_positions in H.
    repeat (apply elem_of_cons in H as [->|H]; [by vm_compute|]).
    by apply elem_of_nil in H.
Qed.

(** Case analysis over the nine positions of the grid. *)
Ltac each_position H :=
  apply in_range_all_positions in H; unfold all_positions in H;
  repeat (apply elem_of_cons in H as [->|H]);
  [ .. | by apply elem_of_nil in H ].

Ltac explicit_grid H :=
  apply grid_3x3_inv in H as (c00 & c01 & c02 & c10 & c11 & c12 & c20 & c21 & c22 & ->).

Lemma reset_grid_3x3 : grid_3x3 (replicate 3 (replicate 3 " ")).
Proof. by vm_compute; repeat constructor. Qed.

(** On the 3-by-3 grid the cells read at the nine positions are the
    contents of the grid, row by row. *)
Lemma cells_all_positions (g : Grid) :
  grid_3x3 g → cell g <$> all_positions = concat g.
Proof. intros Hg. explicit_grid Hg. reflexivity. Qed.

(** Writing a cell of the 3-by-3 grid. *)
Lemma grid_set_in_range (g : Grid) (pos : Position) (v : string) :
  grid_3x3 g → in_range pos →
  ∃ g', grid_set g pos v = Some g' ∧ grid_3x3 g' ∧
        ∀ q, in_range q → cell g' q = if decide (q = pos) then v else cell g q.
Proof.
  intros Hg Hpos. explicit_grid Hg.
  each_position Hpos;
    (eexists; split; [reflexivity|]; split;
     [ by vm_compute; repeat constructor
     | intros q Hq; each_position Hq; by case_decide ]).
Qed.

(** ** Counting cells *)

Section counting.
Context {A B : Type}.

Lemma filter_length_ext (P Q : A → Prop)
    `{!∀ x, Decision (P x)} `{!∀ x, Decision (Q x)} (l : list A) :
  (∀ x, x ∈ l → P x ↔ Q x) →
  length (filter P l) = length (filter Q l).
Proof.
  induction l as [|x l IH]; intros HPQ; [done|].
  rewrite !filter_cons.
  assert (P x ↔ Q x) as Hx by (apply HPQ; left).
  assert (length (filter P l) = length (filter Q l)) as Hl
    by (apply IH; intros y Hy; apply HPQ; by right).
  repeat case_decide; simpl; tauto || lia.
Qed.

Lemma filter_length_fmap (f : A → B) (P : B → Prop)
    `{!∀ y, Decision (P y)} (l : list A) :
  length (filter P (f <$> l)) = length (filter (λ x, P (f x)) l).
Proof.
  induction l as [|x l IH]; [done|].
  rewrite fmap_cons, !filter_cons.
  case_decide; simpl; lia.
Qed.

(** Changing a function at one point of a duplicate-free list changes
    the number of elements whose image satisfies [P] by what that one
    point contributes. *)
Lemma filter_length_update `{!EqDecision A} (f f' : A → B) (P : B → Prop)
    `{!∀ y, Decision (P y)} (l : list A) (p : A) (v : B) :
  NoDup l → p ∈ l →
  (∀ q, q ∈ l → f' q = if decide (q = p) then v else f q) →
  length (filter (λ x, P (f' x)) l) + (if decide (P (f p)) then 1 else 0)
  = length (filter (λ x, P (f x)) l) + (if decide (P v) then 1 else 0).
Proof.
  induction l as [|x l IH]; intros Hnd Hp Hf.
  - by apply elem_of_nil in Hp.
  - apply NoDup_cons in Hnd as [Hx Hnd].
    rewrite !filter_cons.
    pose proof (Hf x ltac:(left)) as Hfx.
    destruct (decide (x = p)) as [->|Hne].
    + assert (length (filter (λ x, P (f' x)) l)
              = length (filter (λ x, P (f x)) l)) as Heq.
      { apply filter_length_ext. intros y Hy.
        rewrite (Hf y ltac:(by right)).
        destruct (decide (y = p)) as [->|]; [done|tauto]. }
      rewrite Hfx. repeat case_decide; simpl; tauto || lia.
    + apply elem_of_cons in Hp as [->|Hp]; [done|].
      specialize (IH Hnd Hp (λ q Hq, Hf q ltac:(by right))).
      rewrite Hfx. repeat case_decide; simpl; tauto || lia.
Qed.
End counting.

Lemma all_positions_NoDup : NoDup all_positions.
Proof. apply (bool_decide_unpack _). by vm_compute. Qed.

(** Counting over the grid is counting over the nine positions. *)
Lemma count_cells_positions (P : string → Prop) `{!∀ c, Decision (P c)} (g : Grid) :
  grid_3x3 g →
  length (filter P (concat g)) = length (filter (λ q, P (cell g q)) all_positions).
Proof.
  intros Hg. rewrite <- (cells_all_positions g Hg). apply filter_length_fmap.
Qed.

(** The effect of one write on a count of cells. *)
Lemma count_cells_grid_set (P : string → Prop) `{!∀ c, Decision (P c)}
    (g g' : Grid) (pos : Position) (v : string) :
  grid_3x3 g → in_range pos → grid_set g pos v = Some g' →
  length (filter P (concat g')) + (if decide (P (cell g pos)) then 1 else 0)
  = length (filter P (concat g)) + (if decide (P v) then 1 else 0).
Proof.
  intros Hg Hpos Hset.
  destruct (grid_set_in_range g pos v Hg Hpos) as (g1 & Hset' & Hg' & Hcell).
  rewrite Hset in Hset'. injection Hset' as <-.
  rewrite !count_cells_positions by done.
  apply (filter_length_update (cell g) (cell g') P all_positions pos v).
  - apply all_positions_NoDup.
  - by apply in_range_all_positions.
  - intros q Hq. apply Hcell. by apply in_range_all_positions.
Qed.

Lemma occupied_le_9 (g : Grid) : grid_3x3 g → occupied g ≤ 9.
Proof.
  intros Hg. unfold occupied.
  etrans; [apply length_filter|].
  explicit_grid Hg. simpl. lia.
Qed.

(** The grid is full exactly when none of the nine cells is blank. *)
Lemma occupied_9_full (g : Grid) :
  grid_3x3 g →
  occupied g = 9 ↔ ∀ q, in_range q → cell g q ≠ " ".
Proof.
  intros Hg. unfold occupied. rewrite count_cells_positions by done.
  split.
  - intros Hn q Hq Hblank. apply in_range_all_positions in Hq.
    pose proof (length_filter_lt (λ q, cell g q ≠ " ") all_positions q Hq) as Hlt.
    specialize (Hlt ltac:(tauto)).
    change (length all_positions) with 9 in Hlt. lia.
  - intros Hall.
    rewrite (filter_length_ext _ (λ _, True) all_positions).
    + reflexivity.
    + intros q Hq. split; [done|]. intros _. apply Hall.
      by apply in_range_all_positions.
Qed.

(** ** What the win check computes *)

Lemma remove_dups_length_le_1 {A} `{!EqDecision A} (l : list A) :
  length (remove_dups l) ≤ 1 ↔ ∀ x y, x ∈ l → y ∈ l → x = y.
Proof.
  split.
  - intros Hlen x y Hx Hy.
    apply elem_of_remove_dups in Hx, Hy.
    destruct (remove_dups l) as [|z [|? ?]]; simpl in Hlen; [| |lia].
    + by apply elem_of_nil in Hx.
    + apply list_elem_of_singleton in Hx, Hy. congruence.
  - intros Hall.
    pose proof (NoDup_remove_dups l) as Hnd.
    assert (∀ x, x ∈ remove_dups l → x ∈ l) as Hin
      by (intros x; apply elem_of_remove_dups).
    destruct (remove_dups l) as [|a [|b k]]; simpl; [lia|lia|].
    exfalso. apply NoDup_cons in Hnd as [Hab _]. apply Hab.
    rewrite (Hall a b); [left| |]; apply Hin; [left|right; left].
Qed.

(** One axis passes the test of the loop exactly when its three cells are
    occupied and hold the same value. *)
Lemma axis_wins_cells (g : Grid) (x y z : Position) :
  axis_wins g [x; y; z] = true ↔
  cell g x ≠ " " ∧ cell g y = cell g x ∧ cell g z = cell g x.
Proof.
  unfold axis_wins. rewrite !filter_cons, filter_nil.
  destruct (decide (cell g x ≠ " ")) as [Hx|Hx];
    destruct (decide (cell g y ≠ " ")) as [Hy|Hy];
    destruct (decide (cell g z ≠ " ")) as [Hz|Hz];
    repeat match goal with H : ¬ (_ ≠ _) |- _ => apply dec_stable in H end;
    try (rewrite bool_decide_eq_true_2 by (simpl; lia);
         split; [discriminate|intros (? & ? & ?); exfalso; congruence]).
  rewrite bool_decide_eq_false_2 by (simpl; lia).
  change (cell g <$> [x; y; z]) with [cell g x; cell g y; cell g z].
  case_bool_decide as Hd; split; try done.
  - intros (_ & Hyx & Hzx). exfalso.
    assert (length (remove_dups [cell g x; cell g y; cell g z]) ≤ 1); [|lia].
    apply remove_dups_length_le_1. intros u v Hu Hv.
    rewrite Hyx, Hzx in Hu, Hv.
    repeat (apply elem_of_cons in Hu as [->|Hu]);
      repeat (apply elem_of_cons in Hv as [->|Hv]);
      try done; by apply elem_of_nil in Hu || by apply elem_of_nil in Hv.
  - intros _. split; [done|].
    assert (length (remove_dups [cell g x; cell g y; cell g z]) ≤ 1) as Hle by lia.
    rewrite remove_dups_length_le_1 in Hle.
    split; apply Hle; repeat constructor.
Qed.

Lemma axis_wins_line (g : Grid) (axis : list Position) :
  length axis = 3 →
  axis_wins g axis = true ↔ ∃ m, m ≠ " " ∧ line_of g m axis.
Proof.
  intros Hlen.
  destruct axis as [|x [|y [|z [|? ?]]]]; simpl in Hlen; try discriminate.
  rewrite axis_wins_cells. unfold line_of. split.
  - intros (Hx & Hy & Hz). exists (cell g x). split; [done|].
    by repeat constructor.
  - intros (m & Hm & Hline).
    apply Forall_cons in Hline as [Hx Hline].
    apply Forall_cons in Hline as [Hy Hline].
    apply Forall_cons in Hline as [Hz _].
    rewrite Hx, Hy, Hz. done.
Qed.

(** The loop over a list of axes finds a win exactly when one of them
    passes the test. *)
Lemma check_axes_Exists (g : Grid) (axes : list (list Position)) :
  check_axes g axes = true ↔ Exists (λ axis, axis_wins g axis = true) axes.
Proof.
  induction axes as [|axis rest IH]; simpl.
  - split; [discriminate|]. intros H. by apply Exists_nil in H.
  - rewrite Exists_cons. destruct (axis_wins g axis); [tauto|].
    rewrite IH. split; [tauto|]. by intros [?|?].
Qed.

Lemma _check_win_spec (b : Board) (pos : Position) :
  _check_win b pos = true ↔
  ∃ axis, axis ∈ _AXES ∧ pos ∈ axis ∧ axis_wins (_grid b) axis = true.
Proof.
  unfold _check_win. rewrite check_axes_Exists, Exists_exists.
  split; intros (axis & H1 & H2).
  - apply list_elem_of_filter in H1 as [? ?]. eauto.
  - destruct H2 as [? ?]. exists axis. split; [|done].
    by apply list_elem_of_filter.
Qed.

(** The table of axes lists the three rows, the three columns and the two
    diagonals. *)
Lemma _AXES_lines :
  _AXES = ((row <$> [0; 1; 2]%Z) ++ (column <$> [0; 1; 2]%Z) ++ diagonals)%list.
Proof. reflexivity. Qed.

(** Facts about the table of axes: each holds three distinct cells of the
    grid. *)
Lemma _AXES_shape (axis : list Position) :
  axis ∈ _AXES → length axis = 3 ∧ NoDup axis ∧ Forall in_range axis.
Proof.
  revert axis. apply Forall_forall.
  apply (bool_decide_unpack _). by vm_compute.
Qed.

Lemma completed_axis_wins (g : Grid) :
  (∃ m, completed g m) ↔ Exists (λ axis, axis_wins g axis = true) _AXES.
Proof.
  rewrite Exists_exists. split.
  - intros (m & Hm & Hex). apply Exists_exists in Hex as (axis & Hin & Hline).
    exists axis. split; [done|].
    apply axis_wins_line; [by apply _AXES_shape|]. eauto.
  - intros (axis & Hin & Hw).
    apply axis_wins_line in Hw as (m & Hm & Hline); [|by apply _AXES_shape].
    exists m. split; [done|]. apply Exists_exists. eauto.
Qed.

(** ** Validation *)

Lemma ALLOWED_POSITIONS_in_range (entry : string) (pos : Position) :
  ALLOWED_POSITIONS !! entry = Some pos → in_range pos.
Proof.
  revert entry pos. change (map_Forall (λ _ pos, in_range pos) ALLOWED_POSITIONS).
  apply (bool_decide_unpack _). by vm_compute.
Qed.

Lemma ALLOWED_POSITIONS_onto (pos : Position) :
  in_range pos → ∃ entry, ALLOWED_POSITIONS !! entry = Some pos.
Proof.
  intros Hpos. each_position Hpos;
    [ by exists "1" | by exists "2" | by exists "3"
    | by exists "4" | by exists "5" | by exists "6"
    | by exists "7" | by exists "8" | by exists "9" ].
Qed.

Lemma _validate_move_inr (b : Board) (entry : string) (pos : Position) :
  _validate_move b entry = inr pos ↔
  ALLOWED_POSITIONS !! entry = Some pos ∧ cell (_grid b) pos = " ".
Proof.
  unfold _validate_move.
  destruct (ALLOWED_POSITIONS !! entry) as [[row col]|]; [|by split; [|intros []]].
  case_bool_decide as Hc.
  - split; [done|]. intros [[= <-] ?]. done.
  - split.
    + intros [= <-]. done.
    + intros [[= <-] _]. done.
Qed.

Lemma _validate_move_legal (b : Board) (entry : string) (pos : Position) :
  _validate_move b entry = inr pos → legal b pos.
Proof.
  intros H. apply _validate_move_inr in H as [Ha Hc]. split; [|done].
  by eapply ALLOWED_POSITIONS_in_range.
Qed.

(** Every legal position is what some entry validates to. *)
Lemma legal_validated (b : Board) (pos : Position) :
  legal b pos ↔ ∃ entry, _validate_move b entry = inr pos.
Proof.
  split.
  - intros [Hr Hc]. destruct (ALLOWED_POSITIONS_onto pos Hr) as [entry He].
    exists entry. by apply _validate_move_inr.
  - intros [entry He]. by eapply _validate_move_legal.
Qed.

(** ** One legal move *)

(** Writing a mark into a blank cell. *)
Lemma occupied_grid_set (g g' : Grid) (pos : Position) (v : string) :
  grid_3x3 g → in_range pos → cell g pos = " " → v ≠ " " →
  grid_set g pos v = Some g' →
  occupied g' = S (occupied g).
Proof.
  intros Hg Hrange Hblank Hv Hset. unfold occupied.
  pose proof (count_cells_grid_set (λ c, c ≠ " ") _ _ _ _ Hg Hrange Hset) as Hc.
  simpl in Hc. rewrite Hblank in Hc.
  rewrite decide_False in Hc by (intros Hf; by apply Hf).
  rewrite decide_True in Hc by done.
  rewrite Nat.add_0_r, Nat.add_1_r in Hc. exact Hc.
Qed.

Lemma count_mark_grid_set (g g' : Grid) (pos : Position) (v m : string) :
  grid_3x3 g → in_range pos → cell g pos = " " → m ≠ " " →
  grid_set g pos v = Some g' →
  count_mark m g' = count_mark m g + (if decide (m = v) then 1 else 0).
Proof.
  intros Hg Hrange Hblank Hm Hset. unfold count_mark.
  pose proof (count_cells_grid_set (λ c, c = m) _ _ _ _ Hg Hrange Hset) as Hc.
  simpl in Hc. rewrite Hblank in Hc.
  rewrite decide_False in Hc by congruence.
  rewrite Nat.add_0_r in Hc. rewrite Hc.
  destruct (decide (v = m)) as [->|Hne].
  - by rewrite decide_True.
  - rewrite decide_False by congruence. done.
Qed.

(** A full line of a mark puts that mark on the board three times. *)
Lemma line_count (g : Grid) (m : string) (axis : list Position) :
  grid_3x3 g → axis ∈ _AXES → line_of g m axis → 3 ≤ count_mark m g.
Proof.
  intros Hg Hin Hline.
  destruct (_AXES_shape axis Hin) as (Hlen & Hnd & Hrange).
  unfold count_mark. rewrite count_cells_positions by done.
  rewrite <- Hlen. apply submseteq_length, NoDup_submseteq; [done|].
  intros x Hx. apply list_elem_of_filter. split.
  - unfold line_of in Hline. rewrite Forall_forall in Hline. by apply Hline.
  - apply in_range_all_positions. rewrite Forall_forall in Hrange. by apply Hrange.
Qed.

(** ** What [move] does on any board *)

Lemma py_index_lt (n : nat) (i : Z) (k : nat) :
  py_index n i = Some k → k < n.
Proof.
  unfold py_index. repeat case_bool_decide; intros [= <-]; lia.
Qed.

Lemma py_index_None (n : nat) (i : Z) :
  py_index n i = None ↔ ¬ (- Z.of_nat n ≤ i < Z.of_nat n)%Z.
Proof.
  unfold py_index. repeat case_bool_decide; split; try done; lia.
Qed.

Lemma grid_set_3x3 (g g' : Grid) (pos : Position) (v : string) :
  grid_3x3 g → grid_set g pos v = Some g' → grid_3x3 g'.
Proof.
  intros [Hlen Hrows]. unfold grid_set.
  destruct (py_index (length g) pos.1) as [i|]; [simpl|discriminate].
  destruct (g !! i) as [r|] eqn:Hr; [simpl|discriminate].
  destruct (py_index (length r) pos.2) as [j|]; [simpl|discriminate].
  intros [= <-]. split.
  - by rewrite length_insert.
  - apply Forall_insert; [done|]. rewrite length_insert.
    rewrite Forall_forall in Hrows. apply Hrows.
    apply list_elem_of_lookup. eauto.
Qed.

(** A subscript out of [-3 .. 2] on either axis raises. *)
Lemma grid_set_out_of_range (g : Grid) (pos : Position) (v : string) :
  grid_3x3 g →
  ¬ ((-3 ≤ pos.1 ≤ 2)%Z ∧ (-3 ≤ pos.2 ≤ 2)%Z) →
  grid_set g pos v = None.
Proof.
  intros [Hlen Hrows] Hout. unfold grid_set.
  destruct (py_index (length g) pos.1) as [i|] eqn:Hi; [simpl|done].
  destruct (g !! i) as [r|] eqn:Hr; [simpl|done].
  assert (length r = 3) as Hlr.
  { rewrite Forall_forall in Hrows. apply Hrows. apply list_elem_of_lookup. eauto. }
  assert (py_index (length r) pos.2 = None) as ->; [|done].
  apply py_index_None. rewrite Hlr.
  assert (¬ (- Z.of_nat (length g) ≤ pos.1 < Z.of_nat (length g))%Z → False) as Hin.
  { intros Hn. apply py_index_None in Hn. congruence. }
  rewrite Hlen in Hin. lia.
Qed.

(** How [move] leaves the turn: flipped when it returns, as it was when it
    raises. *)
Lemma move_turn (b b' : Board) (pos : Position) (c : Completion) :
  move b pos = (b', c) →
  _turn b' = match c with Normal => flip_turn (_turn b) | Raise _ => _turn b end.
Proof.
  unfold move.
  destruct (players_at (_players b) (_turn b)) as [mark|]; [|by intros [= <- <-]].
  destruct (grid_set (_grid b) pos mark) as [g|]; [|by intros [= <- <-]].
  destruct (_ && _); [by intros [= <- <-]|].
  case_bool_decide; by intros [= <- <-].
Qed.

(** [move] raises nothing but [IndexError], [Win] and [GameOver]. *)
Lemma move_raises (b b' : Board) (pos : Position) (c : Completion) :
  move b pos = (b', c) →
  ∀ ex, c = Raise ex → ∀ msg, ex ≠ InvalidPosition msg.
Proof.
  unfold move.
  destruct (players_at (_players b) (_turn b)) as [mark|];
    [|by intros [= <- <-] ex [= <-]].
  destruct (grid_set (_grid b) pos mark) as [g|];
    [|by intros [= <- <-] ex [= <-]].
  destruct (_ && _); [by intros [= <- <-] ex [= <-]|].
  case_bool_decide; intros [= <- <-] ex Hc; by inversion Hc.
Qed.

Lemma move_players (b : Board) (pos : Position) :
  _players (move b pos).1 = _players b.
Proof.
  unfold move.
  destruct (players_at (_players b) (_turn b)) as [mark|]; [|done].
  destruct (grid_set (_grid b) pos mark) as [g|]; [|done].
  destruct (_ && _); [done|]. by case_bool_decide.
Qed.

Lemma move_well_formed (b : Board) (pos : Position) :
  well_formed b → well_formed (move b pos).1.
Proof.
  intros [Hg Ht]. unfold move.
  destruct (players_at (_players b) (_turn b)) as [mark|]; [|done].
  destruct (grid_set (_grid b) pos mark) as [g|] eqn:Hset; [|done].
  pose proof (grid_set_3x3 _ _ _ _ Hg Hset) as Hg'.
  destruct (_ && _); [done|]. case_bool_decide; [done|].
  split; [done|]. simpl. unfold flip_turn. case_bool_decide; lia.
Qed.

Lemma reachable_well_formed (b : Board) : reachable b → well_formed b.
Proof.
  induction 1 as [players|b _ _|b pos _ IH].
  - split; [apply reset_grid_3x3|simpl; lia].
  - split; [apply reset_grid_3x3|simpl; lia].
  - by apply move_well_formed.
Qed.

(** A move out of [-3 .. 2] raises [IndexError] before anything is
    written. *)
Lemma move_out_of_range (b : Board) (pos : Position) :
  grid_3x3 (_grid b) →
  ¬ ((-3 ≤ pos.1 ≤ 2)%Z ∧ (-3 ≤ pos.2 ≤ 2)%Z) →
  move b pos = (b, Raise IndexError).
Proof.
  intros Hg Hout. unfold move.
  destruct (players_at (_players b) (_turn b)) as [mark|]; [|done].
  by rewrite (grid_set_out_of_range _ _ mark Hg Hout).
Qed.

(** ** The game loop's move application *)

Lemma apply_move_validated (b : Board) (entry : string) (pos : Position) :
  _validate_move b entry = inr pos → apply_move b entry = move b pos.
Proof. unfold apply_move. by intros ->. Qed.

Lemma apply_move_rejected (b : Board) (entry : string) (ex : Exn) :
  _validate_move b entry = inl ex → apply_move b entry = (b, Raise ex).
Proof. unfold apply_move. by intros ->. Qed.

Lemma apply_move_Normal (b b' : Board) (entry : string) :
  apply_move b entry = (b', Normal) →
  ∃ pos, _validate_move b entry = inr pos ∧ move b pos = (b', Normal).
Proof.
  unfold apply_move. destruct (_validate_move b entry) as [ex|pos]; [done|].
  eauto.
Qed.

Lemma play_snoc (b : Board) (entries : list string) (entry : string) :
  play b (entries ++ [entry]) =
  b' ← play b entries;
  match apply_move b' entry with (b'', Normal) => Some b'' | _ => None end.
Proof.
  revert b. induction entries as [|e rest IH]; intros b; simpl.
  - by destruct (apply_move b entry) as [b'' [|ex]].
  - destruct (apply_move b e) as [b1 [|ex]]; [apply IH|done].
Qed.

(** The moves of a game, and the move that ends it, are a sequence of
    legal moves. *)
Lemma play_apply_all (b b' : Board) (entries : list string) :
  play b entries = Some b' → apply_all b entries = Some b'.
Proof.
  revert b. induction entries as [|e rest IH]; intros b; cbn [play apply_all]; [done|].
  destruct (apply_move b e) as [b1 [|ex]] eqn:Ha; [|done].
  apply apply_move_Normal in Ha as (pos & -> & Hm).
  rewrite Hm. apply IH.
Qed.

Lemma play_apply_all_last (b b' b'' : Board) (entries : list string)
    (entry : string) (pos : Position) (c : Completion) :
  play b entries = Some b' → _validate_move b' entry = inr pos →
  apply_move b' entry = (b'', c) →
  apply_all b (entries ++ [entry]) = Some b''.
Proof.
  revert b. induction entries as [|e rest IH]; intros b; cbn [play app apply_all].
  - intros [= <-] Hv Ha. rewrite Hv.
    rewrite (apply_move_validated _ _ _ Hv) in Ha. by rewrite Ha.
  - destruct (apply_move b e) as [b1 [|ex]] eqn:Ha; [|done].
    apply apply_move_Normal in Ha as (pos' & -> & Hm).
    rewrite Hm. apply IH.
Qed.

(** An invariant of the boards on which the game continues holds along
    every game. *)
Lemma play_invariant (I : Board → Prop) (b b' : Board) (entries : list string) :
  (∀ b1 b2 pos, I b1 → legal b1 pos → move b1 pos = (b2, Normal) → I b2) →
  I b → play b entries = Some b' → I b'.
Proof.
  intros Hstep. revert b. induction entries as [|e rest IH]; intros b Hb; simpl.
  - by intros [= <-].
  - destruct (apply_move b e) as [b1 [|ex]] eqn:Ha; [|done].
    apply apply_move_Normal in Ha as (pos & Hv & Hm).
    apply IH. eapply Hstep; [done| |done]. by eapply _validate_move_legal.
Qed.

(** ** Rejected moves, reset, and what [move] does with any position *)

Lemma _check_win_out_of_grid (b : Board) (pos : Position) :
  ¬ in_range pos → _check_win b pos = false.
Proof.
  intros Hout. apply not_true_is_false. intros Hw.
  apply _check_win_spec in Hw as (axis & Hin & Hpos & _).
  destruct (_AXES_shape axis Hin) as (_ & _ & Hrange).
  rewrite Forall_forall in Hrange. by apply Hout, Hrange.
Qed.


(** C3: on every board, a position of the grid whose cell is not blank is
    refused: every entry that names it (there is one) fails the validation
    with [InvalidPosition("Position is occupied")], [Board.move] is not
    called, and the whole board (grid, turn, counter) is as before. *)
Theorem occupied_cell_rejected (b : Board) (pos : Position) :
  well_formed b → in_range pos → cell (_grid b) pos ≠ " " →
  (∃ entry, ALLOWED_POSITIONS !! entry = Some pos) ∧
  ∀ entry, ALLOWED_POSITIONS !! entry = Some pos →
    _validate_move b entry = inl (InvalidPosition "Position is occupied") ∧
    apply_move b entry = (b, Raise (InvalidPosition "Position is occupied")).
Proof.
  intros _ Hrange Hocc. split; [by apply ALLOWED_POSITIONS_onto|].
  intros entry He.
  assert (_validate_move b entry = inl (InvalidPosition "Position is occupied")) as Hv.
  { unfold _validate_move. rewrite He. destruct pos as [row col].
    by rewrite bool_decide_eq_true_2. }
  split; [done|]. by apply apply_move_rejected.
Qed.

(** C4 (as amended): an entry that names no cell of the grid is refused by
    the validation with [InvalidPosition("Position does not exist")] and
    the board is as before; every position the validation lets through is
    on the grid; and [Board.move] itself, given a position with a component
    outside [-3 .. 2], raises [IndexError] and leaves the whole board as it
    was. *)
Theorem out_of_range_rejected (b : Board) :
  well_formed b →
  (∀ entry, ALLOWED_POSITIONS !! entry = None →
     apply_move b entry = (b, Raise (InvalidPosition "Position does not exist"))) ∧
  (∀ entry pos, _validate_move b entry = inr pos → in_range pos) ∧
  (∀ pos, ¬ ((-3 ≤ pos.1 ≤ 2)%Z ∧ (-3 ≤ pos.2 ≤ 2)%Z) →
     move b pos = (b, Raise IndexError)).
Proof.
  intros [Hg _]. split; [|split].
  - intros entry He. apply apply_move_rejected.
    unfold _validate_move. by rewrite He.
  - intros entry pos Hv. by apply (_validate_move_legal b entry pos).
  - intros pos Hout. by apply move_out_of_range.
Qed.

Lemma reset_board_blank (b : Board) (q : Position) :
  in_range q → cell (_grid (reset_board b)) q = " ".
Proof. intros Hq. each_position Hq; reflexivity. Qed.

(** C9: [reset_board] on any board gives the blank 3-by-3 grid, turn 0 and
    counter 0; it is a total function, there is nothing it can raise. *)
Theorem reset_board_clears (b : Board) :
  _grid (reset_board b) = [[" "; " "; " "]; [" "; " "; " "]; [" "; " "; " "]] ∧
  (∀ q, in_range q → cell (_grid (reset_board b)) q = " ") ∧
  occupied (_grid (reset_board b)) = 0 ∧
  _turn (reset_board b) = 0 ∧
  _filled_squares (reset_board b) = 0 ∧
  _players (reset_board b) = _players b.
Proof.
  split; [done|]. split; [|done]. apply reset_board_blank.
Qed.


(** C5: along a game from a fresh board the turn after [n] moves that
    returned is [n mod 2]; the next entry leaves the board as it is when it
    is rejected, leaves the turn as it is when the move ends the game
    ([Win] or [GameOver] raised), and flips it when the game continues. *)
Theorem turn_alternates (players : Players) (entries : list string) (b : Board) :
  play (Board_init players) entries = Some b →
  _turn b = length entries mod 2 ∧
  ∀ entry b' c, apply_move b entry = (b', c) →
    match c with
    | Normal => _turn b' = (length entries + 1) mod 2
    | Raise (InvalidPosition _) => b' = b
    | Raise _ => _turn b' = _turn b
    end.
Proof.
  intros Hplay.
  assert (∀ b0 b1 es, play b0 es = Some b1 → _turn b0 < 2 →
            _turn b1 = (_turn b0 + length es) mod 2) as Hgen.
  { intros b0 b1 es. revert b0.
    induction es as [|e rest IH]; intros b0; cbn [play length].
    - intros [= <-] Hlt. lia.
    - destruct (apply_move b0 e) as [b2 [|ex]] eqn:Ha; [|done].
      apply apply_move_Normal in Ha as (pos & _ & Hm).
      apply move_turn in Hm. intros Hp Hlt.
      rewrite (IH b2 Hp); rewrite Hm; unfold flip_turn; case_bool_decide; lia. }
  pose proof (Hgen _ _ _ Hplay ltac:(simpl; lia)) as Hturn.
  change (_turn (Board_init players)) with 0 in Hturn. rewrite Nat.add_0_l in Hturn.
  split; [done|]. intros entry b' c Ha. unfold apply_move in Ha.
  destruct (_validate_move b entry) as [ex|pos] eqn:Hv.
  - injection Ha as <- <-. unfold _validate_move in Hv.
    destruct (ALLOWED_POSITIONS !! entry) as [[row col]|]; [|by injection Hv as <-].
    case_bool_decide; [by injection Hv as <-|done].
  - pose proof (move_raises _ _ _ _ Ha) as Hex.
    apply move_turn in Ha. destruct c as [|ex].
    + rewrite Ha, Hturn. unfold flip_turn. case_bool_decide; lia.
    + destruct ex as [msg| | |]; try done. by destruct (Hex _ eq_refl msg).
Qed.

(** ** The lines of the rules and the axes of the code *)

(** The table of the code lists the eight lines of the rules. *)
Lemma winning_lines_AXES : winning_lines = _AXES.
Proof. reflexivity. Qed.

Lemma three_in_line_completed (g : Grid) (m : string) :
  three_in_line g m ↔ completed g m.
Proof. unfold three_in_line, completed. by rewrite winning_lines_AXES. Qed.


(** After a legal move on a board without a full line, a full line goes
    through the cell just played and holds the mark just written. *)
Lemma completed_through_move (b : Board) (pos : Position) (g : Grid) (mark m : string) :
  (∀ m, ¬ completed (_grid b) m) →
  cell g pos = mark →
  (∀ q, in_range q → q ≠ pos → cell g q = cell (_grid b) q) →
  completed g m →
  m = mark ∧ ∃ axis, axis ∈ _AXES ∧ pos ∈ axis ∧ line_of g m axis.
Proof.
  intros Hnone Hpos Hother [Hm Hex].
  apply Exists_exists in Hex as (axis & Hin & Hline).
  destruct (decide (pos ∈ axis)) as [Hp|Hp].
  - split; [|by eauto].
    unfold line_of in Hline. rewrite Forall_forall in Hline.
    rewrite <- Hpos. symmetry. by apply Hline.
  - exfalso. apply (Hnone m). split; [done|].
    apply Exists_exists. exists axis. split; [done|].
    destruct (_AXES_shape axis Hin) as (_ & _ & Hrange).
    unfold line_of in *. rewrite Forall_forall in *.
    intros x Hx. rewrite <- Hother; [by apply Hline|by apply Hrange|].
    intros ->. done.
Qed.

(** The brute-force scan finds a mark exactly when a line is full. *)
Lemma line_mark_Some (g : Grid) (axis : list Position) (m : string) :
  line_mark g axis = Some m ↔ axis ≠ [] ∧ m ≠ " " ∧ line_of g m axis.
Proof.
  unfold line_mark, line_of. destruct axis as [|x rest].
  - split; [discriminate|]. by intros [? _].
  - case_decide as Hd.
    + destruct Hd as [Hnb Heq]. split.
      * intros [= <-]. split; [done|]. split; [|done].
        apply Forall_cons in Hnb as [Hx _]. done.
      * intros (_ & Hm & Hline). f_equal.
        apply Forall_cons in Hline as [Hx _]. done.
    + split; [discriminate|]. intros (_ & Hm & Hline). exfalso. apply Hd.
      pose proof Hline as Hline'. apply Forall_cons in Hline' as [Hx _].
      split.
      * eapply Forall_impl; [exact Hline|]. simpl. intros y ->. done.
      * eapply Forall_impl; [exact Hline|]. simpl. intros y ->. done.
Qed.

Lemma scan_lines_Some (g : Grid) (m : string) :
  scan_lines g winning_lines = Some m → completed g m.
Proof.
  rewrite winning_lines_AXES.
  unfold completed. generalize _AXES. intros axes.
  induction axes as [|axis rest IH]; simpl; [discriminate|].
  destruct (line_mark g axis) as [m'|] eqn:Hl.
  - intros [= ->]. apply line_mark_Some in Hl as (_ & Hm & Hline).
    split; [done|]. by left.
  - intros H. destruct (IH H) as [Hm Hex]. split; [done|]. by right.
Qed.

Lemma scan_lines_None (g : Grid) :
  scan_lines g winning_lines = None → ∀ m, ¬ completed g m.
Proof.
  rewrite winning_lines_AXES.
  intros Hscan m [Hm Hex].
  apply Exists_exists in Hex as (axis & Hin & Hline).
  assert (length axis = 3) as Hlen by (by apply _AXES_shape).
  revert Hscan Hin. generalize _AXES. intros axes.
  induction axes as [|axis' rest IH]; simpl; intros Hscan Hin.
  - by apply elem_of_nil in Hin.
  - destruct (line_mark g axis') as [m'|] eqn:Hl; [discriminate|].
    apply elem_of_cons in Hin as [<-|Hin]; [|by apply IH].
    assert (line_mark g axis = Some m) as Hs.
    { apply line_mark_Some. split; [|done]. by destruct axis. }
    congruence.
Qed.

Lemma check_axes_completed (g : Grid) :
  check_axes g _AXES = true ↔ ∃ m, completed g m.
Proof. by rewrite check_axes_Exists, completed_axis_wins. Qed.




Lemma Board_init_tally (players : Players) : tally players (Board_init players).
Proof. split; [|done]. split; [apply reset_grid_3x3|simpl; lia]. Qed.


(** ** A game of two distinct marks *)

Section distinct_marks.
Variable players : Players.
Hypothesis marks_distinct : players.1 ≠ players.2.

Lemma write_shares (b : Board) (pos : Position) :
  shares_ok players b → _turn b = _filled_squares b mod 2 → legal b pos →
  ∃ mark g,
    players_at (_players b) (_turn b) = Some mark ∧
    grid_set (_grid b) pos mark = Some g ∧
    cell g pos = mark ∧
    (∀ q, in_range q → q ≠ pos → cell g q = cell (_grid b) q) ∧
    ∀ t, shares_ok players (written b g t).
Proof using All.
  intros (Hg & Hp & Hcnt) Hturn [Hrange Hblank].
  assert (∃ mark, players_at (_players b) (_turn b) = Some mark ∧
            ∀ m, mark_share players (_filled_squares b + 1) m
                 = mark_share players (_filled_squares b) m
                   + (if decide (m = mark) then 1 else 0))
    as (mark & Hmark & Hshare).
  { rewrite Hp. assert (_turn b = 0 ∨ _turn b = 1) as [Ht|Ht] by lia; rewrite Ht.
    - exists players.1. split; [done|].
      intros m. unfold mark_share.
      repeat case_decide; try congruence; lia.
    - exists players.2. split; [done|].
      intros m. unfold mark_share.
      repeat case_decide; try congruence; lia. }
  destruct (grid_set_in_range (_grid b) pos mark Hg Hrange) as (g & Hset & Hg' & Hcell).
  exists mark, g.
  split; [done|]. split; [done|].
  split; [by rewrite Hcell, decide_True|].
  split; [by intros q Hq Hne; rewrite Hcell, decide_False|].
  intros t. split; [done|]. split; [done|].
  change (∀ m, m ≠ " " →
            count_mark m g = mark_share players (_filled_squares b + 1) m).
  intros m Hm.
  rewrite (count_mark_grid_set _ _ _ _ m Hg Hrange Hblank Hm Hset).
  rewrite Hshare, <- (Hcnt m Hm). done.
Qed.

(** A line can only be full once five moves are counted. *)
Lemma line_needs_5 (b : Board) (m : string) :
  shares_ok players b → completed (_grid b) m → 5 ≤ _filled_squares b.
Proof.
  intros (Hg & _ & Hcnt) [Hm Hex].
  apply Exists_exists in Hex as (axis & Hin & Hline).
  pose proof (line_count _ _ _ Hg Hin Hline) as H3.
  rewrite (Hcnt m Hm) in H3. unfold mark_share in H3.
  repeat case_decide; lia.
Qed.

(** The test of [move] (only the axes through the cell just played, only
    from the fifth counted move on) finds a win exactly when the scan of
    all the axes does. *)
Lemma win_test_complete (b : Board) (pos : Position) (g : Grid) (mark : string) (t : nat) :
  in_play players b →
  cell g pos = mark →
  (∀ q, in_range q → q ≠ pos → cell g q = cell (_grid b) q) →
  shares_ok players (written b g t) →
  bool_decide (5 ≤ _filled_squares b + 1) && _check_win (written b g t) pos
  = check_axes g _AXES.
Proof.
  intros (Hc & Hturn & Hnone) Hpos Hother Hc'.
  apply eq_true_iff_eq. rewrite andb_true_iff, bool_decide_eq_true.
  rewrite _check_win_spec, check_axes_Exists, Exists_exists. split.
  - intros (_ & axis & Hin & _ & Hw). eauto.
  - intros (axis & Hin & Hw).
    apply axis_wins_line in Hw as (m & Hm & Hline); [|by apply _AXES_shape].
    assert (completed g m) as Hdone.
    { split; [done|]. apply Exists_exists. eauto. }
    split.
    + apply (line_needs_5 (written b g t) m Hc' Hdone).
    + destruct (completed_through_move b pos g mark m Hnone Hpos Hother Hdone)
        as (_ & axis' & Hin' & Hp' & Hline').
      exists axis'. split; [done|]. split; [done|].
      apply axis_wins_line; [by apply _AXES_shape|]. eauto.
Qed.

(** What a legal move does on a board in play. *)
Lemma move_legal (b : Board) (pos : Position) :
  in_play players b → legal b pos →
  ∃ mark g,
    players_at players (_turn b) = Some mark ∧
    grid_set (_grid b) pos mark = Some g ∧
    cell g pos = mark ∧
    (∀ q, in_range q → q ≠ pos → cell g q = cell (_grid b) q) ∧
    (∀ t, shares_ok players (written b g t)) ∧
    (∀ m, completed g m → m = mark) ∧
    move b pos =
      if check_axes g _AXES then (written b g (_turn b), Raise (Win mark))
      else if bool_decide (_filled_squares b + 1 = 9)
      then (written b g (_turn b), Raise GameOver)
      else (written b g (flip_turn (_turn b)), Normal).
Proof using All.
  intros Hip Hlegal. pose proof Hip as (Hc & Hturn & Hnone).
  destruct (write_shares b pos Hc Hturn Hlegal)
    as (mark & g & Hmark & Hset & Hpos & Hother & Hc').
  exists mark, g.
  assert (_players b = players) as Hp by apply Hc.
  split; [by rewrite <- Hp|]. split; [done|].
  split; [done|]. split; [done|]. split; [done|]. split.
  - intros m Hm.
    by destruct (completed_through_move b pos g mark m Hnone Hpos Hother Hm).
  - unfold move. rewrite Hmark, Hset.
    rewrite <- (win_test_complete b pos g mark (_turn b) Hip Hpos Hother (Hc' _)).
    reflexivity.
Qed.

(** The game goes on after a legal move that returns. *)
Lemma move_in_play (b b' : Board) (pos : Position) :
  in_play players b → legal b pos → move b pos = (b', Normal) →
  in_play players b'.
Proof using All.
  intros Hip Hlegal Hmove.
  destruct (move_legal b pos Hip Hlegal)
    as (mark & g & Hmark & Hset & Hpos & Hother & Hc' & Hwho & Heq).
  rewrite Heq in Hmove. destruct Hip as (Hc & Hturn & Hnone).
  destruct (check_axes g _AXES) eqn:Hcheck; [discriminate|].
  case_bool_decide; [discriminate|].
  injection Hmove as <-. split; [apply Hc'|]. split.
  - change (flip_turn (_turn b) = (_filled_squares b + 1) mod 2).
    unfold flip_turn. case_bool_decide; lia.
  - intros m Hm. simpl in Hm.
    assert (check_axes g _AXES = true); [|congruence].
    apply check_axes_completed. eauto.
Qed.

(** On a legal move of a game in play the brute-force evaluation and the
    evaluation of [move] agree, on the board and on the completion. *)
Lemma move_brute_legal (b : Board) (pos : Position) :
  in_play players b → legal b pos → move_brute b pos = move b pos.
Proof using All.
  intros Hip Hlegal.
  destruct (move_legal b pos Hip Hlegal)
    as (mark & g & Hmark & Hset & Hpos & Hother & Hc' & Hwho & Heq).
  rewrite Heq. unfold move_brute.
  assert (_players b = players) as Hp by apply Hip.
  rewrite Hp, Hmark, Hset.
  destruct (scan_lines g winning_lines) as [m|] eqn:Hscan.
  - apply scan_lines_Some in Hscan.
    rewrite (Hwho m Hscan).
    assert (check_axes g _AXES = true) as ->
      by (apply check_axes_completed; eauto).
    by rewrite <- Hp.
  - assert (check_axes g _AXES = false) as ->.
    { apply not_true_is_false. intros [m Hm]%check_axes_completed.
      by apply (scan_lines_None g Hscan m). }
    by rewrite <- Hp.
Qed.

Lemma Board_init_in_play : in_play players (Board_init players).
Proof.
  split; [|split].
  - split; [apply reset_grid_3x3|]. split; [done|].
    intros m Hm. unfold count_mark. simpl.
    rewrite !filter_cons, filter_nil.
    rewrite !decide_False by congruence.
    unfold mark_share. simpl. by repeat case_decide.
  - done.
  - intros m [Hm Hex]. apply Exists_exists in Hex as (axis & Hin & Hline).
    destruct (_AXES_shape axis Hin) as (Hlen & _ & Hrange).
    destruct axis as [|x ?]; [discriminate|].
    apply Forall_cons in Hline as [Hx _].
    apply Forall_cons in Hrange as [Hr _].
    each_position Hr; by vm_compute in Hx.
Qed.

Lemma play_in_play (b : Board) (entries : list string) :
  play (Board_init players) entries = Some b → in_play players b.
Proof using All.
  intros Hplay.
  apply (play_invariant (in_play players) _ _ _ move_in_play
           Board_init_in_play Hplay).
Qed.

Lemma apply_move_brute_in_play (b : Board) (entry : string) :
  in_play players b → apply_move_brute b entry = apply_move b entry.
Proof using All.
  intros Hip. unfold apply_move_brute, apply_move.
  destruct (_validate_move b entry) as [ex|pos] eqn:Hv; [done|].
  apply move_brute_legal; [done|]. by eapply _validate_move_legal.
Qed.

Lemma outcomes_agree (b : Board) (entries : list string) :
  in_play players b →
  outcomes apply_move b entries = outcomes apply_move_brute b entries.
Proof using All.
  revert b. induction entries as [|e rest IH]; intros b Hip; [done|].
  cbn [outcomes]. rewrite (apply_move_brute_in_play b e Hip).
  destruct (apply_move b e) as [b1 c] eqn:Ha. f_equal.
  destruct c as [|ex].
  - apply IH. apply apply_move_Normal in Ha as (pos & Hv & Hm).
    eapply move_in_play; [done| |done]. by eapply _validate_move_legal.
  - destruct ex as [msg| | |]; try done.
    apply IH. unfold apply_move in Ha.
    destruct (_validate_move b e) as [ex|pos]; [by injection Ha as <- _|].
    by destruct (move_raises _ _ _ _ Ha _ eq_refl msg).
Qed.

(** C1 (as amended): in a game of two distinct marks from a fresh board,
    before a legal move no row, column or diagonal is fully occupied with
    one mark, and the move raises [Win] exactly when one is after it; the
    mark of the [Win] is that of the line and of the player who has just
    moved, and the line goes through the cell just played. *)
Theorem win_exactly_when_line_completed
    (entries : list string) (b b' : Board) (entry : string) (pos : Position)
    (c : Completion) :
  play (Board_init players) entries = Some b →
  _validate_move b entry = inr pos →
  apply_move b entry = (b', c) →
  (∀ m, ¬ three_in_line (_grid b) m) ∧
  (∀ m, three_in_line (_grid b') m ↔ c = Raise (Win m)) ∧
  (∀ m, c = Raise (Win m) →
        players_at players (_turn b) = Some m ∧
        cell (_grid b') pos = m ∧
        ∃ line, line ∈ winning_lines ∧ pos ∈ line ∧ line_of (_grid b') m line).
Proof using All.
  setoid_rewrite three_in_line_completed. rewrite winning_lines_AXES.
  intros Hplay Hv Ha. apply play_in_play in Hplay as Hip.
  rewrite (apply_move_validated _ _ _ Hv) in Ha.
  apply _validate_move_legal in Hv.
  destruct (move_legal b pos Hip Hv)
    as (mark & g & Hmark & Hset & Hpos & Hother & Hc' & Hwho & Heq).
  rewrite Heq in Ha. pose proof Hip as (_ & _ & Hnone).
  split; [done|].
  destruct (check_axes g _AXES) eqn:Hcheck.
  - injection Ha as <- <-. simpl.
    apply check_axes_completed in Hcheck as [m' Hm'].
    pose proof (Hwho m' Hm') as ->.
    split.
    + intros m. split; [by intros ->%Hwho|by intros [= <-]].
    + intros m [= <-]. split; [done|]. split; [done|].
      by destruct (completed_through_move b pos g mark mark Hnone Hpos Hother Hm').
  - assert (∀ m, ¬ completed g m) as Hnone'.
    { intros m Hm. assert (check_axes g _AXES = true); [|congruence].
      apply check_axes_completed. eauto. }
    case_bool_decide; injection Ha as <- <-; simpl;
      (split; [intros m; split; [by intros ?%Hnone'|done]|done]).
Qed.

(** C7 (as amended): for two distinct marks, on every entry of a game
    from a fresh board the move application of the code and the one that
    scans all eight lines of the rules at every move give the same board
    and the same completion, so the two give the same completions over
    every sequence of entries. *)
Theorem brute_force_scan_agrees (entries : list string) :
  outcomes apply_move (Board_init players) entries
  = outcomes apply_move_brute (Board_init players) entries ∧
  ∀ b, play (Board_init players) entries = Some b →
       ∀ entry, apply_move_brute b entry = apply_move b entry.
Proof using All.
  split.
  - apply outcomes_agree, Board_init_in_play.
  - intros b Hplay entry.
    apply apply_move_brute_in_play. by apply (play_in_play b entries).
Qed.
End distinct_marks.

(** ** The counter, for marks other than the blank *)

Lemma reset_board_init (b : Board) : reset_board b = Board_init (_players b).
Proof. reflexivity. Qed.

Section marks.
Variable players : Players.
Hypothesis first_mark_not_blank : players.1 ≠ " ".
Hypothesis second_mark_not_blank : players.2 ≠ " ".

Lemma move_tally (b b' : Board) (pos : Position) (c : Completion) :
  tally players b → legal b pos → move b pos = (b', c) →
  tally players b' ∧ _filled_squares b' = _filled_squares b + 1.
Proof using All.
  intros ([Hg Ht] & Hp & Hocc) [Hrange Hblank] Hmove.
  assert (well_formed b') as Hwf.
  { change b' with (b', c).1. rewrite <- Hmove. by apply move_well_formed. }
  assert (_players b' = players) as Hp'.
  { change b' with (b', c).1. rewrite <- Hmove. by rewrite move_players. }
  assert (∃ mark, players_at (_players b) (_turn b) = Some mark ∧ mark ≠ " ")
    as (mark & Hmark & Hnb).
  { rewrite Hp. unfold players_at.
    assert (_turn b = 0 ∨ _turn b = 1) as [-> | ->] by lia; eauto. }
  destruct (grid_set_in_range (_grid b) pos mark Hg Hrange) as (g & Hset & _ & _).
  pose proof (occupied_grid_set _ _ _ _ Hg Hrange Hblank Hnb Hset) as Hocc'.
  assert (_grid b' = g ∧ _filled_squares b' = _filled_squares b + 1) as [Hg' Hf'].
  { unfold move in Hmove. rewrite Hmark, Hset in Hmove.
    destruct (_ && _); [by injection Hmove as <- _|].
    case_bool_decide; by injection Hmove as <- _. }
  split; [|done]. split; [done|]. split; [done|].
  rewrite Hg', Hf', Hocc', Hocc. lia.
Qed.

Lemma apply_all_tally (b b' : Board) (entries : list string) :
  tally players b → apply_all b entries = Some b' →
  tally players b' ∧ _filled_squares b' = _filled_squares b + length entries.
Proof using All.
  revert b. induction entries as [|e rest IH]; intros b Hb; cbn [apply_all length].
  - intros [= <-]. split; [done|]. lia.
  - destruct (_validate_move b e) as [ex|pos] eqn:Hv; [done|].
    apply _validate_move_legal in Hv.
    destruct (move b pos) as [b1 c] eqn:Hm.
    destruct (move_tally _ _ _ _ Hb Hv Hm) as [Hb1 Hf1].
    intros Hp. destruct (IH b1 Hb1 Hp) as [Hb' Hf'].
    split; [done|]. lia.
Qed.

Lemma play_tally (b b' : Board) (entries : list string) :
  tally players b → play b entries = Some b' →
  tally players b' ∧ _filled_squares b' = _filled_squares b + length entries.
Proof using All.
  intros Hb Hplay. apply apply_all_tally; [done|]. by apply play_apply_all.
Qed.

(** C6 (as amended): for two marks other than the blank, from a fresh or
    a reset board, after any sequence of [N] legal moves (each entry
    accepted by the validation; the moves of a game, the one that ends it
    included, are such a sequence) the counter is [N], it is the number of
    cells of the grid that are not blank, and it is at most 9. *)
Theorem counter_counts_moves (start b : Board) (entries : list string) :
  start = Board_init players ∨ (∃ b0, _players b0 = players ∧ start = reset_board b0) →
  apply_all start entries = Some b →
  _filled_squares b = length entries ∧
  occupied (_grid b) = _filled_squares b ∧
  _filled_squares b ≤ 9.
Proof using All.
  intros Hstart Happly.
  assert (start = Board_init players) as ->.
  { destruct Hstart as [->|(b0 & <- & ->)]; [done|apply reset_board_init]. }
  assert (tally players (Board_init players)) as Hinit.
  { split; [|done]. split; [apply reset_grid_3x3|simpl; lia]. }
  destruct (apply_all_tally _ _ _ Hinit Happly) as [Hb Hf]. simpl in Hf.
  pose proof Hb as ([Hg _] & _ & Hocc).
  split; [done|]. split; [done|].
  rewrite <- Hocc. by apply occupied_le_9.
Qed.




(** C8 (as amended): for two marks other than the blank, after a move
    that ends a game from a fresh board, a [GameOver] has filled the grid;
    on a full grid every further entry is rejected by the validation and
    the board stays as it is; while the grid has a blank cell (a [Win]
    before the ninth move) some entry is still accepted and counted as a
    further move; and after [reset_board] every entry that names a cell is
    accepted again. *)
Theorem full_board_rejects_until_reset
    (entries : list string) (b b' : Board) (entry : string) (pos : Position)
    (c : Completion) :
  play (Board_init players) entries = Some b →
  _validate_move b entry = inr pos →
  apply_move b entry = (b', c) →
  (c = Raise GameOver ∨ ∃ m, c = Raise (Win m)) →
  (c = Raise GameOver → _filled_squares b' = 9) ∧
  (_filled_squares b' = 9 →
   ∀ e, ∃ msg, apply_move b' e = (b', Raise (InvalidPosition msg))) ∧
  (_filled_squares b' < 9 →
   ∃ e pos', _validate_move b' e = inr pos' ∧
             _filled_squares (apply_move b' e).1 = _filled_squares b' + 1) ∧
  (∀ e pos', ALLOWED_POSITIONS !! e = Some pos' →
             _validate_move (reset_board b') e = inr pos').
Proof using All.
  intros Hplay Hv Ha Hend.
  rewrite (apply_move_validated _ _ _ Hv) in Ha.
  apply _validate_move_legal in Hv.
  destruct (play_tally _ _ _ (Board_init_tally players) Hplay) as [Ht _].
  destruct (move_tally _ _ _ _ Ht Hv Ha) as [Htally Hf'].
  pose proof Htally as ([Hg3 _] & Hp' & Hocc).
  split; [|split; [|split]].
  - intros ->. unfold move in Ha.
    destruct (players_at (_players b) (_turn b)); [|done].
    destruct (grid_set (_grid b) pos s); [|done].
    destruct (_ && _); [done|].
    case_bool_decide as H9; [|done]. injection Ha as <-. exact H9.
  - intros H9 e. rewrite <- Hocc in H9.
    rewrite (occupied_9_full _ Hg3) in H9.
    unfold apply_move, _validate_move.
    destruct (ALLOWED_POSITIONS !! e) as [[row col]|] eqn:He; [|eauto].
    rewrite bool_decide_eq_true_2; [eauto|].
    apply H9. by eapply ALLOWED_POSITIONS_in_range.
  - intros Hlt.
    assert (Exists (λ q, ¬ cell (_grid b') q ≠ " ") all_positions) as Hex.
    { apply not_Forall_Exists; [apply _|]. intros Hall.
      assert (occupied (_grid b') = 9); [|lia].
      apply occupied_9_full; [done|]. intros q Hq.
      rewrite Forall_forall in Hall. by apply Hall, in_range_all_positions. }
    apply Exists_exists in Hex as (q & Hq & Hblank).
    apply dec_stable in Hblank. apply in_range_all_positions in Hq.
    destruct (ALLOWED_POSITIONS_onto q Hq) as [e He].
    assert (_validate_move b' e = inr q) as Hv' by (by apply _validate_move_inr).
    exists e, q. split; [done|].
    rewrite (apply_move_validated _ _ _ Hv').
    destruct (move b' q) as [b2 c2] eqn:Hm.
    by destruct (move_tally _ _ _ _ Htally (conj Hq Hblank) Hm).
  - intros e pos' He. apply _validate_move_inr. split; [done|].
    apply ALLOWED_POSITIONS_in_range in He.
    by apply reset_board_blank.
Qed.
End marks.

(** ** A game of two distinct marks other than the blank *)

Section game.
Variable players : Players.
Hypothesis first_mark_not_blank : players.1 ≠ " ".
Hypothesis second_mark_not_blank : players.2 ≠ " ".
Hypothesis marks_distinct : players.1 ≠ players.2.

Lemma play_in_progress (b : Board) (entries : list string) :
  play (Board_init players) entries = Some b → in_progress players b.
Proof using All.
  intros Hplay.
  destruct (play_in_play players marks_distinct b entries Hplay)
    as ((Hg & Hp & Hcnt) & Hturn & Hnone).
  destruct (play_tally players first_mark_not_blank second_mark_not_blank
              _ _ _ (Board_init_tally players) Hplay) as [(_ & _ & Hocc) _].
  split; [|by split]. split; [done|]. split; [done|]. by split.
Qed.
End game.

(** ** Concrete games *)

Lemma XO_marks : XO.1 ≠ " " ∧ XO.2 ≠ " " ∧ XO.1 ≠ XO.2.
Proof. by repeat split. Defined.

Lemma Board_init_well_formed (players : Players) : well_formed (Board_init players).
Proof. split; [apply reset_grid_3x3|simpl; lia]. Qed.

(** [Board.move] alone does not look at the cell it writes: on an occupied
    cell it overwrites the mark and counts a further move.  The check of
    C3 is the one of [_validate_move]. *)
Example move_alone_overwrites :
  move (XO_board [["X"; " "; " "]; [" "; " "; " "]; [" "; " "; " "]] 1 1) (0, 0)%Z
  = (XO_board [["O"; " "; " "]; [" "; " "; " "]; [" "; " "; " "]] 0 2, Normal).
Proof. by vm_compute. Qed.

(** The second of two moves on the same cell. *)
Lemma occupied_cell_rejected_witness :
  let b := XO_board [["X"; " "; " "]; [" "; " "; " "]; [" "; " "; " "]] 1 1 in
  (well_formed b ∧ in_range (0, 0)%Z ∧ cell (_grid b) (0, 0)%Z ≠ " ") ∧
  _validate_move b "1" = inl (InvalidPosition "Position is occupied") ∧
  apply_move b "1" = (b, Raise (InvalidPosition "Position is occupied")).
Proof.
  intros b.
  assert (well_formed b) as Hwf by (by apply (bool_decide_unpack _)).
  assert (in_range (0, 0)%Z) as Hr by (by apply (bool_decide_unpack _)).
  assert (cell (_grid b) (0, 0)%Z ≠ " ") as Hc by (by vm_compute).
  split; [done|].
  destruct (occupied_cell_rejected b (0, 0)%Z Hwf Hr Hc) as [_ H].
  apply H. by vm_compute.
Defined.

(** C4, as the claim states it, fails: [Board.move] takes the position
    [(-1, -1)], which is off the grid, writes the mark into the last cell
    and flips the turn. *)
Lemma move_accepts_position_off_the_grid :
  let b := Board_init XO in
  let pos := (-1, -1)%Z in
  well_formed b ∧ ¬ in_range pos ∧
  move b pos
  = (XO_board [[" "; " "; " "]; [" "; " "; " "]; [" "; " "; "X"]] 1 1, Normal) ∧
  _grid (move b pos).1 ≠ _grid b ∧
  _turn (move b pos).1 ≠ _turn b.
Proof.
  split; [apply Board_init_well_formed|].
  split; [by intros [[? _] _]|].
  split; [by vm_compute|].
  split; by vm_compute.
Qed.

(** An entry off the table, and the position [(5, 5)] handed to
    [Board.move]. *)
Lemma out_of_range_rejected_witness :
  let b := Board_init XO in
  well_formed b ∧
  apply_move b "0" = (b, Raise (InvalidPosition "Position does not exist")) ∧
  move b (5, 5)%Z = (b, Raise IndexError).
Proof.
  intros b.
  assert (well_formed b) as Hwf by apply Board_init_well_formed.
  split; [done|].
  destruct (out_of_range_rejected b Hwf) as (H1 & _ & H3).
  split; [apply H1; by vm_compute|apply H3; simpl; lia].
Defined.


(** After two moves it is the turn of the first player again. *)
Lemma turn_alternates_witness :
  let b := XO_board [["X"; " "; " "]; [" "; "O"; " "]; [" "; " "; " "]] 0 2 in
  play (Board_init XO) ["1"; "5"] = Some b ∧
  _turn b = 2 mod 2 ∧
  ∀ entry b' c, apply_move b entry = (b', c) →
    match c with
    | Normal => _turn b' = (2 + 1) mod 2
    | Raise (InvalidPosition _) => b' = b
    | Raise _ => _turn b' = _turn b
    end.
Proof.
  intros b.
  assert (play (Board_init XO) ["1"; "5"] = Some b) as Hplay by (by vm_compute).
  split; [done|]. exact (turn_alternates XO ["1"; "5"] b Hplay).
Defined.

(** Two moves on a reset board. *)
Lemma counter_counts_moves_witness :
  let b := XO_board [["X"; " "; " "]; [" "; "O"; " "]; [" "; " "; " "]] 0 2 in
  (XO.1 ≠ " " ∧ XO.2 ≠ " " ∧
   apply_all (reset_board (Board_init XO)) ["1"; "5"] = Some b) ∧
  _filled_squares b = 2 ∧ occupied (_grid b) = _filled_squares b ∧
  _filled_squares b ≤ 9.
Proof.
  intros b.
  assert (apply_all (reset_board (Board_init XO)) ["1"; "5"] = Some b) as Happly
    by (vm_compute; reflexivity).
  destruct XO_marks as (H1 & H2 & _).
  split; [repeat split; assumption|].
  apply (counter_counts_moves XO H1 H2 (reset_board (Board_init XO)) b ["1"; "5"]);
    [|exact Happly].
  right. by exists (Board_init XO).
Defined.

(** The top row of "X", completed by the fifth move. *)
Lemma win_exactly_when_line_completed_witness :
  let b := XO_board [["X"; "X"; " "]; ["O"; "O"; " "]; [" "; " "; " "]] 0 4 in
  let b' := XO_board [["X"; "X"; "X"]; ["O"; "O"; " "]; [" "; " "; " "]] 0 5 in
  (XO.1 ≠ XO.2 ∧
   play (Board_init XO) ["1"; "5"; "2"; "4"] = Some b ∧
   _validate_move b "3" = inr (0, 2)%Z ∧
   apply_move b "3" = (b', Raise (Win "X"))) ∧
  (∀ m, ¬ three_in_line (_grid b) m) ∧
  (∀ m, three_in_line (_grid b') m ↔ Raise (Win "X") = Raise (Win m)) ∧
  (∀ m, Raise (Win "X") = Raise (Win m) →
        players_at XO (_turn b) = Some m ∧
        cell (_grid b') (0, 2)%Z = m ∧
        ∃ line, line ∈ winning_lines ∧ (0, 2)%Z ∈ line ∧ line_of (_grid b') m line).
Proof.
  intros b b'.
  assert (play (Board_init XO) ["1"; "5"; "2"; "4"] = Some b) as Hplay
    by (by vm_compute).
  assert (_validate_move b "3" = inr (0, 2)%Z) as Hv by (by vm_compute).
  assert (apply_move b "3" = (b', Raise (Win "X"))) as Ha by (by vm_compute).
  destruct XO_marks as (_ & _ & H3).
  split; [repeat split; assumption|].
  exact (win_exactly_when_line_completed XO H3 _ _ _ _ _ _ Hplay Hv Ha).
Defined.


(** A game with a rejected entry that ends with a win. *)
Lemma brute_force_scan_agrees_witness :
  XO.1 ≠ XO.2 ∧
  outcomes apply_move (Board_init XO) ["1"; "5"; "1"; "2"; "4"; "3"]
  = outcomes apply_move_brute (Board_init XO) ["1"; "5"; "1"; "2"; "4"; "3"] ∧
  ∀ b, play (Board_init XO) ["1"; "5"; "1"; "2"; "4"; "3"] = Some b →
       ∀ entry, apply_move_brute b entry = apply_move b entry.
Proof.
  destruct XO_marks as (_ & _ & H3).
  split; [assumption|].
  exact (brute_force_scan_agrees XO H3 ["1"; "5"; "1"; "2"; "4"; "3"]).
Defined.

(** C8, as the claim states it, fails: after the move that wins the game
    for "X" the same board accepts a further move on a blank cell. *)
Lemma move_accepted_after_win :
  let b := XO_board [["X"; "X"; " "]; ["O"; "O"; " "]; [" "; " "; " "]] 0 4 in
  let won := XO_board [["X"; "X"; "X"]; ["O"; "O"; " "]; [" "; " "; " "]] 0 5 in
  play (Board_init XO) ["1"; "5"; "2"; "4"] = Some b ∧
  apply_move b "3" = (won, Raise (Win "X")) ∧
  apply_move won "9"
  = (XO_board [["X"; "X"; "X"]; ["O"; "O"; " "]; [" "; " "; "X"]] 1 6, Normal).
Proof. split; [by vm_compute|]. split; by vm_compute. Qed.

(** After the draw every entry is rejected. *)
Lemma full_board_rejects_until_reset_witness :
  let b := XO_board [["X"; "O"; "X"]; ["X"; "O"; "O"]; ["O"; "X"; " "]] 0 8 in
  let b' := XO_board [["X"; "O"; "X"]; ["X"; "O"; "O"]; ["O"; "X"; "X"]] 0 9 in
  (XO.1 ≠ " " ∧ XO.2 ≠ " " ∧
   play (Board_init XO) ["1"; "2"; "3"; "5"; "4"; "6"; "8"; "7"] = Some b ∧
   _validate_move b "9" = inr (2, 2)%Z ∧
   apply_move b "9" = (b', Raise GameOver) ∧
   (Raise GameOver = Raise GameOver ∨ ∃ m, Raise GameOver = Raise (Win m))) ∧
  ∀ e, ∃ msg, apply_move b' e = (b', Raise (InvalidPosition msg)).
Proof.
  intros b b'.
  assert (play (Board_init XO) ["1"; "2"; "3"; "5"; "4"; "6"; "8"; "7"] = Some b)
    as Hplay by (by vm_compute).
  assert (_validate_move b "9" = inr (2, 2)%Z) as Hv by (by vm_compute).
  assert (apply_move b "9" = (b', Raise GameOver)) as Ha by (by vm_compute).
  assert (Raise GameOver = Raise GameOver ∨ ∃ m, Raise GameOver = Raise (Win m))
    as Hend by (by left).
  destruct XO_marks as (H1 & H2 & _).
  split; [repeat split; assumption|].
  destruct (full_board_rejects_until_reset XO H1 H2 _ _ _ _ _ _ Hplay Hv Ha Hend)
    as (H9 & Hrej & _).
  apply Hrej, H9. reflexivity.
Defined.

(** ** Marks that the game accepts: one mark for both players, the blank *)

(** C1, as the claim states it, fails: [_get_players] takes the mark "X"
    for both players; the third move then completes the top row with "X"
    and returns, no [Win] is raised. *)
Lemma line_completed_without_win :
  let b := {| _grid := [["X"; "X"; " "]; [" "; " "; " "]; [" "; " "; " "]];
              _turn := 0; _filled_squares := 2; _players := ("X", "X") |} in
  let b' := {| _grid := [["X"; "X"; "X"]; [" "; " "; " "]; [" "; " "; " "]];
               _turn := 1; _filled_squares := 3; _players := ("X", "X") |} in
  ending (_get_players ["X"; "X"]) = Return ("X", "X") ∧
  play (Board_init ("X", "X")) ["1"; "2"] = Some b ∧
  _validate_move b "3" = inr (0, 2)%Z ∧
  apply_move b "3" = (b', Normal) ∧
  three_in_line (_grid b') "X".
Proof.
  split; [by vm_compute|]. split; [by vm_compute|].
  split; [by vm_compute|]. split; [by vm_compute|].
  unfold three_in_line, line_of. apply (bool_decide_unpack _). by vm_compute.
Qed.

(** C7, as the claim states it, fails: with the mark "X" for both players
    the scan of all the lines reports a win at the third move, where the
    code, which looks for a win from the fifth move on, lets the game go
    on. *)
Lemma brute_force_scan_differs_on_equal_marks :
  ending (_get_players ["X"; "X"]) = Return ("X", "X") ∧
  outcomes apply_move (Board_init ("X", "X")) ["1"; "2"; "3"]
  = [Normal; Normal; Normal] ∧
  outcomes apply_move_brute (Board_init ("X", "X")) ["1"; "2"; "3"]
  = [Normal; Normal; Raise (Win "X")].
Proof. split; [by vm_compute|]. split; by vm_compute. Qed.

(** C6, as the claim states it, fails: [_get_players] takes the blank for
    a mark; a move of its player is counted and leaves the cell blank, so
    that after two legal moves, both on the first cell, the counter is 2
    and one cell is occupied. *)
Lemma blank_mark_counted_without_a_cell :
  let b := {| _grid := [["O"; " "; " "]; [" "; " "; " "]; [" "; " "; " "]];
              _turn := 0; _filled_squares := 2; _players := (" ", "O") |} in
  ending (_get_players [" "; "O"]) = Return (" ", "O") ∧
  apply_all (Board_init (" ", "O")) ["1"; "1"] = Some b ∧
  play (Board_init (" ", "O")) ["1"; "1"] = Some b ∧
  _filled_squares b = 2 ∧
  occupied (_grid b) = 1.
Proof.
  split; [by vm_compute|]. split; [by vm_compute|].
  split; [by vm_compute|]. split; by vm_compute.
Qed.


(** What the condition on the marks in C8 is for: with the blank for a
    mark, the board on which [GameOver] was raised at the count of 9 still
    accepts the entry "9", and counts a tenth move. *)
Example blank_mark_accepted_after_draw :
  let b' := {| _grid := [["O"; "O"; " "]; [" "; " "; "O"]; ["O"; " "; " "]];
               _turn := 0; _filled_squares := 9; _players := (" ", "O") |} in
  let b'' := {| _grid := [["O"; "O"; " "]; [" "; " "; "O"]; ["O"; " "; " "]];
                _turn := 1; _filled_squares := 10; _players := (" ", "O") |} in
  (∃ b, play (Board_init (" ", "O")) ["9"; "1"; "9"; "2"; "9"; "6"; "9"; "7"] = Some b ∧
        apply_move b "9" = (b', Raise GameOver)) ∧
  _validate_move b' "9" = inr (2, 2)%Z ∧
  apply_move b' "9" = (b'', Normal).
Proof.
  split; [|split; by vm_compute].
  eexists. split; [by vm_compute|by vm_compute].
Qed.

(** * Further properties of the board *)

(** X1: on any board, the win check at a position answers [True] exactly
    when some axis of the table that holds the position has its three cells
    occupied by one and the same mark. *)
Theorem _check_win_exactly_a_full_axis (b : Board) (pos : Position) :
  _check_win b pos = true ↔
  ∃ axis m, axis ∈ _AXES ∧ pos ∈ axis ∧ m ≠ " " ∧ line_of (_grid b) m axis.
Proof.
  rewrite _check_win_spec. split.
  - intros (axis & Hin & Hpos & Hw).
    apply axis_wins_line in Hw as (m & Hm & Hline); [|by apply _AXES_shape].
    by exists axis, m.
  - intros (axis & m & Hin & Hpos & Hm & Hline).
    exists axis. split; [done|]. split; [done|].
    apply axis_wins_line; [by apply _AXES_shape|]. eauto.
Qed.

(** X2: a position with a component off the grid is in no axis of the
    table, so [Board.move] never raises [Win] on it, whatever line the write
    completes through the aliased cell. *)
Theorem move_off_the_grid_never_wins (b : Board) (pos : Position) :
  ¬ in_range pos → ∀ m, (move b pos).2 ≠ Raise (Win m).
Proof.
  intros Hout m. unfold move.
  destruct (players_at (_players b) (_turn b)) as [mark|]; [|done].
  destruct (grid_set (_grid b) pos mark) as [g|]; [|done].
  rewrite (_check_win_out_of_grid _ pos Hout), andb_false_r.
  by case_bool_decide.
Qed.

(** X3: every board that calls of [__init__], [reset_board] and [move]
    can build, with any positions and however the moves end, is a grid of
    three rows of three cells with the turn at 0 or 1. *)
Theorem reachable_boards_are_well_formed (b : Board) :
  reachable b → grid_3x3 (_grid b) ∧ (_turn b = 0 ∨ _turn b = 1).
Proof.
  intros Hr. destruct (reachable_well_formed b Hr) as [Hg Ht].
  split; [done|]. lia.
Qed.


(** What [move] does once the write has succeeded. *)
Lemma move_written (b : Board) (pos : Position) (mark : string) (g : Grid) :
  players_at (_players b) (_turn b) = Some mark →
  grid_set (_grid b) pos mark = Some g →
  _grid (move b pos).1 = g ∧
  _filled_squares (move b pos).1 = _filled_squares b + 1 ∧
  (move b pos).2 ≠ Raise IndexError.
Proof.
  intros Hmark Hset. unfold move. rewrite Hmark, Hset.
  destruct (_ && _); [done|]. by case_bool_decide.
Qed.

Lemma well_formed_mark (b : Board) :
  well_formed b → ∃ mark, players_at (_players b) (_turn b) = Some mark.
Proof.
  intros [_ Ht]. unfold players_at.
  assert (_turn b = 0 ∨ _turn b = 1) as [-> | ->] by lia; eauto.
Qed.


(** X5: [Board.move] does not look at the cell it writes.  On an occupied
    cell of the grid it replaces the mark and still adds one to the counter,
    while the number of occupied cells stays what it was. *)
Theorem move_overwrites_and_counts (b : Board) (pos : Position) (mark : Player) :
  well_formed b → in_range pos → cell (_grid b) pos ≠ " " →
  players_at (_players b) (_turn b) = Some mark → mark ≠ " " →
  cell (_grid (move b pos).1) pos = mark ∧
  occupied (_grid (move b pos).1) = occupied (_grid b) ∧
  _filled_squares (move b pos).1 = _filled_squares b + 1.
Proof.
  intros [Hg _] Hrange Hocc Hmark Hnb.
  destruct (grid_set_in_range (_grid b) pos mark Hg Hrange) as (g & Hset & _ & Hcell).
  destruct (move_written b pos mark g Hmark Hset) as (-> & Hf & _).
  split; [by rewrite Hcell, decide_True|]. split; [|done].
  unfold occupied.
  pose proof (count_cells_grid_set (λ c, c ≠ " ") _ _ _ _ Hg Hrange Hset) as Hc.
  simpl in Hc. rewrite !decide_True in Hc by done.
  apply Nat.add_cancel_r in Hc. exact Hc.
Qed.

(** ** The length of a game *)

Lemma move_Normal_counter (b b' : Board) (pos : Position) :
  move b pos = (b', Normal) →
  _filled_squares b' = _filled_squares b + 1 ∧ _filled_squares b' ≠ 9.
Proof.
  unfold move.
  destruct (players_at (_players b) (_turn b)) as [mark|]; [|done].
  destruct (grid_set (_grid b) pos mark) as [g|]; [|done].
  destruct (_ && _); [done|].
  case_bool_decide as H9; [done|]. by intros [= <-].
Qed.

(** What a move that ends the game says about the counter. *)
Lemma move_ending_counter (b b' : Board) (pos : Position) (c : Completion) :
  move b pos = (b', c) →
  (c = Raise GameOver → _filled_squares b + 1 = 9) ∧
  (∀ m, c = Raise (Win m) → 5 ≤ _filled_squares b + 1).
Proof.
  unfold move.
  destruct (players_at (_players b) (_turn b)) as [mark|];
    [|by intros [= <- <-]].
  destruct (grid_set (_grid b) pos mark) as [g|]; [|by intros [= <- <-]].
  simpl. case_bool_decide as H5; simpl.
  - destruct (_check_win _ pos); [by intros [= <- <-]|].
    case_bool_decide; intros [= <- <-]; split; intros; try done; lia.
  - case_bool_decide; intros [= <- <-]; split; intros; try done; lia.
Qed.

Lemma move_in_game (b b' : Board) (pos : Position) :
  in_game b → legal b pos → move b pos = (b', Normal) → in_game b'.
Proof.
  intros (Hwf & Hocc & H8) [Hrange Hblank] Hmove.
  destruct (move_Normal_counter _ _ _ Hmove) as [Hf H9].
  destruct (well_formed_mark b Hwf) as [mark Hmark].
  pose proof Hwf as [Hg _].
  destruct (grid_set_in_range (_grid b) pos mark Hg Hrange) as (g & Hset & _ & _).
  destruct (move_written b pos mark g Hmark Hset) as (Hg' & _ & _).
  rewrite Hmove in Hg'. simpl in Hg'.
  split; [|split; [|lia]].
  - change b' with (b', Normal).1. rewrite <- Hmove. by apply move_well_formed.
  - rewrite Hg', Hf. unfold occupied in *.
    pose proof (count_cells_grid_set (λ c, c ≠ " ") _ _ _ _ Hg Hrange Hset) as Hc.
    simpl in Hc. destruct (decide (mark ≠ " ")); lia.
Qed.

Lemma play_counter (b b' : Board) (entries : list string) :
  play b entries = Some b' →
  _filled_squares b' = _filled_squares b + length entries.
Proof.
  revert b. induction entries as [|e rest IH]; intros b; cbn [play length].
  - intros [= <-]. lia.
  - destruct (apply_move b e) as [b1 [|ex]] eqn:Ha; [|done].
    apply apply_move_Normal in Ha as (pos & _ & Hm).
    apply move_Normal_counter in Hm as [Hf _].
    intros Hp. rewrite (IH b1 Hp). lia.
Qed.

Lemma Board_init_in_game (players : Players) : in_game (Board_init players).
Proof.
  split; [apply Board_init_well_formed|]. split; [|simpl; lia].
  by vm_compute.
Qed.

Lemma play_in_game (players : Players) (b : Board) (entries : list string) :
  play (Board_init players) entries = Some b → in_game b.
Proof.
  intros Hplay.
  apply (play_invariant in_game _ _ _ move_in_game (Board_init_in_game players) Hplay).
Qed.

(** The validation raises nothing but [InvalidPosition]. *)
Lemma _validate_move_inl (b : Board) (entry : string) (ex : Exn) :
  _validate_move b entry = inl ex → ∃ msg, ex = InvalidPosition msg.
Proof.
  unfold _validate_move.
  destruct (ALLOWED_POSITIONS !! entry) as [[row col]|]; [|intros [= <-]; eauto].
  case_bool_decide; [intros [= <-]; eauto|done].
Qed.

(** X6: for any two marks, a game from a fresh board has the counter at
    the number of its moves and goes on for at most eight moves that return;
    the move that ends it is the fifth at the earliest and the ninth at the
    latest, and a [GameOver] is always the ninth. *)
Theorem game_takes_five_to_nine_moves
    (players : Players) (entries : list string) (b : Board) :
  play (Board_init players) entries = Some b →
  _filled_squares b = length entries ∧
  length entries ≤ 8 ∧
  ∀ entry b' c, apply_move b entry = (b', c) →
    (c = Raise GameOver → length entries + 1 = 9) ∧
    (∀ m, c = Raise (Win m) → 5 ≤ length entries + 1 ≤ 9).
Proof.
  intros Hplay.
  pose proof (play_counter _ _ _ Hplay) as Hf. simpl in Hf.
  destruct (play_in_game _ _ _ Hplay) as (_ & _ & H8).
  split; [done|]. split; [lia|].
  intros entry b' c Ha. unfold apply_move in Ha.
  destruct (_validate_move b entry) as [ex|pos] eqn:Hv.
  - apply _validate_move_inl in Hv as [msg ->].
    injection Ha as <- <-. split; [done|]. intros m [=].
  - destruct (move_ending_counter _ _ _ _ Ha) as [Hover Hwin].
    split.
    + intros Hc. specialize (Hover Hc). lia.
    + intros m Hc. specialize (Hwin m Hc). lia.
Qed.

Lemma ALLOWED_POSITIONS_inj (e1 e2 : string) (pos : Position) :
  ALLOWED_POSITIONS !! e1 = Some pos → ALLOWED_POSITIONS !! e2 = Some pos →
  e1 = e2.
Proof.
  intros H1 H2.
  apply elem_of_list_to_map_2 in H1, H2.
  repeat (apply elem_of_cons in H1 as [[= -> ->]|H1]);
    try (by apply elem_of_nil in H1);
    repeat (apply elem_of_cons in H2 as [[= ->]|H2]);
    try done; by apply elem_of_nil in H2.
Qed.

(** X7: the validation accepts exactly the blank cells of the grid, each
    through one entry and no other: a position comes out of
    [_validate_move] for some entry if and only if it is on the grid and its
    cell is blank, and then the entry is unique. *)
Theorem blank_cells_have_one_entry (b : Board) (pos : Position) :
  (in_range pos ∧ cell (_grid b) pos = " ") ↔
  ∃ entry, _validate_move b entry = inr pos ∧
           ∀ entry', _validate_move b entry' = inr pos → entry' = entry.
Proof.
  split.
  - intros [Hr Hc]. destruct (ALLOWED_POSITIONS_onto pos Hr) as [entry He].
    exists entry. split; [by apply _validate_move_inr|].
    intros entry' Hv'. apply _validate_move_inr in Hv' as [He' _].
    by apply (ALLOWED_POSITIONS_inj entry' entry pos).
  - intros (entry & Hv & _). by apply (_validate_move_legal b entry).
Qed.

(** X8: a game that continues can continue: for any two marks, on every
    board of a game from a fresh board some entry is accepted by the
    validation, as the board has a blank cell. *)
Theorem game_in_progress_has_a_move
    (players : Players) (entries : list string) (b : Board) :
  play (Board_init players) entries = Some b →
  ∃ entry pos, _validate_move b entry = inr pos.
Proof.
  intros Hplay. destruct (play_in_game _ _ _ Hplay) as ([Hg _] & Hocc & H8).
  assert (Exists (λ q, ¬ cell (_grid b) q ≠ " ") all_positions) as Hex.
  { apply not_Forall_Exists; [apply _|]. intros Hall.
    assert (occupied (_grid b) = 9); [|lia].
    apply occupied_9_full; [done|]. intros q Hq.
    rewrite Forall_forall in Hall. by apply Hall, in_range_all_positions. }
  apply Exists_exists in Hex as (q & Hq & Hblank).
  apply dec_stable in Hblank. apply in_range_all_positions in Hq.
  destruct (ALLOWED_POSITIONS_onto q Hq) as [entry He].
  exists entry, q. by apply _validate_move_inr.
Qed.

(** * Properties of the text interface *)

(** ** Reading the marks *)

Lemma _get_players_loop_spec (first : option Player) (ins : list string) :
  match ending (_get_players_loop first ins) with
  | Return (mark1, mark2) =>
      ∃ pre, ins = (pre ++ unread (_get_players_loop first ins))%list ∧
             ("quit" ∉ pre) ∧
             marks_so_far first pre = [mark1; mark2] ∧
             last pre = Some mark2
  | Throw UserExit =>
      ∃ pre, ins = (pre ++ "quit" :: unread (_get_players_loop first ins))%list ∧
             ("quit" ∉ pre) ∧
             length (marks_so_far first pre) < 2
  | Throw EOFError =>
      unread (_get_players_loop first ins) = [] ∧
      ("quit" ∉ ins) ∧
      length (marks_so_far first ins) < 2
  | Throw _ => False
  end.
Proof.
  revert first. induction ins as [|player ins IH]; intros first.
  - simpl. split; [done|]. split; [by intros ?%elem_of_nil|].
    unfold marks_so_far. destruct first; simpl; lia.
  - cbn [_get_players_loop].
    destruct (decide (player = "quit")) as [->|Hq].
    { simpl. exists []. split; [done|]. split; [by intros ?%elem_of_nil|].
      unfold marks_so_far. destruct first; simpl; lia. }
    destruct (decide (py_len player ≠ 1)) as [Hlen|Hlen].
    { specialize (IH first). cbn [ending unread].
      assert (∀ l, marks_so_far first (player :: l) = marks_so_far first l) as Hskip.
      { intros l. unfold marks_so_far. by rewrite filter_cons_False. }
      destruct (ending (_get_players_loop first ins)) as [[mark1 mark2]|x].
      - destruct IH as (pre & Hins & Hnq & Hmarks & Hlast).
        exists (player :: pre). split; [by rewrite Hins at 1|].
        split; [by intros [?|?]%elem_of_cons|]. split; [by rewrite Hskip|].
        destruct pre; [|done]. unfold marks_so_far in Hmarks.
        destruct first; simpl in Hmarks; discriminate.
      - destruct x as [e| | |]; try done.
        + destruct IH as (pre & Hins & Hnq & Hmarks).
          exists (player :: pre). split; [by rewrite Hins at 1|].
          split; [by intros [?|?]%elem_of_cons|]. by rewrite Hskip.
        + destruct IH as (Hun & Hnq & Hmarks).
          split; [done|]. split; [by intros [?|?]%elem_of_cons|].
          by rewrite Hskip. }
    apply dec_stable in Hlen.
    destruct first as [mark1|].
    { simpl. exists [player]. split; [done|].
      split; [by intros [?|?%elem_of_nil]%elem_of_cons|].
      unfold marks_so_far. simpl. by rewrite filter_cons_True, filter_nil. }
    specialize (IH (Some player)). cbn [ending unread].
    assert (∀ l, marks_so_far None (player :: l) = marks_so_far (Some player) l)
      as Htake.
    { intros l. unfold marks_so_far. by rewrite filter_cons_True. }
    destruct (ending (_get_players_loop (Some player) ins)) as [[mark1 mark2]|x].
    + destruct IH as (pre & Hins & Hnq & Hmarks & Hlast).
      exists (player :: pre). split; [by rewrite Hins at 1|].
      split; [by intros [?|?]%elem_of_cons|]. split; [by rewrite Htake|].
      destruct pre; [|done]. unfold marks_so_far in Hmarks. discriminate.
    + destruct x as [e| | |]; try done.
      * destruct IH as (pre & Hins & Hnq & Hmarks).
        exists (player :: pre). split; [by rewrite Hins at 1|].
        split; [by intros [?|?]%elem_of_cons|]. by rewrite Htake.
      * destruct IH as (Hun & Hnq & Hmarks).
        split; [done|]. split; [by intros [?|?]%elem_of_cons|].
        by rewrite Htake.
Qed.

(** X9: [_get_players] returns the first two lines of one code point, read
    before any line "quit", and stops reading at the second; it raises
    [UserExit] at the first line "quit" if fewer than two such lines came
    before it, and ends with [EOFError] on an input that holds neither; it
    raises nothing else.  Lines of another length, counted in code points
    as [len] does, are skipped. *)
Theorem _get_players_takes_two_marks (ins : list string) :
  match ending (_get_players ins) with
  | Return (mark1, mark2) =>
      py_len mark1 = 1 ∧ py_len mark2 = 1 ∧
      ∃ pre, ins = (pre ++ unread (_get_players ins))%list ∧
             ("quit" ∉ pre) ∧
             filter (λ s, py_len s = 1) pre = [mark1; mark2] ∧
             last pre = Some mark2
  | Throw UserExit =>
      ∃ pre, ins = (pre ++ "quit" :: unread (_get_players ins))%list ∧
             ("quit" ∉ pre) ∧
             length (filter (λ s, py_len s = 1) pre) < 2
  | Throw EOFError =>
      unread (_get_players ins) = [] ∧
      ("quit" ∉ ins) ∧
      length (filter (λ s, py_len s = 1) ins) < 2
  | Throw _ => False
  end.
Proof.
  pose proof (_get_players_loop_spec None ins) as H. unfold _get_players.
  destruct (ending (_get_players_loop None ins)) as [[mark1 mark2]|x]; [|done].
  destruct H as (pre & Hins & Hnq & Hmarks & Hlast).
  unfold marks_so_far in Hmarks. simpl in Hmarks.
  assert (Forall (λ s, py_len s = 1) [mark1; mark2]) as Hall.
  { rewrite <- Hmarks. apply Forall_forall. intros s Hs.
    by apply list_elem_of_filter in Hs as [? _]. }
  apply Forall_cons in Hall as [H1 Hall]. apply Forall_cons in Hall as [H2 _].
  split; [done|]. split; [done|]. by exists pre.
Qed.

(** A mark of one code point and three bytes is taken as it is. *)
Example _get_players_counts_code_points :
  py_len "✓" = 1 ∧ String.length "✓" = 3 ∧
  _get_players ["✓"; "O"]
  = mkRun (Return ("✓", "O")) []
          ["Enter mark (player 1): "; "Enter mark (player 2): "].
Proof. split; [|split]; by vm_compute. Qed.

(** ** Asking for a position and for a replay *)

Lemma read_one_shorter {A} (l k u : list A) (x : A) :
  l = (k ++ x :: u)%list → length u < length l.
Proof. intros ->. rewrite length_app. simpl. lia. Qed.

Lemma _get_player_move_spec
    (py : Builtins) (b : Board) (ins : list string) :
  let r := _get_player_move py b ins in
  match ending r with
  | Return pos =>
      legal b pos ∧
      ∃ skipped line, ins = (skipped ++ line :: unread r)%list ∧
                      Forall (asked_again py b) skipped ∧
                      _validate_move b (normalised py line) = inr pos
  | Throw UserExit =>
      ∃ skipped line, ins = (skipped ++ line :: unread r)%list ∧
                      Forall (asked_again py b) skipped ∧
                      normalised py line = "quit"
  | Throw Forfeit =>
      ∃ skipped line, ins = (skipped ++ line :: unread r)%list ∧
                      Forall (asked_again py b) skipped ∧
                      normalised py line = "ff"
  | Throw EOFError => unread r = [] ∧ Forall (asked_again py b) ins
  | Throw (Exception _) => False
  end.
Proof.
  induction ins as [|line ins IH]; [by split|].
  cbn [_get_player_move]. fold (normalised py line).
  destruct (decide (normalised py line = "quit")) as [Hq|Hq].
  { simpl. by exists [], line. }
  destruct (decide (normalised py line = "ff")) as [Hf|Hf].
  { simpl. by exists [], line. }
  destruct (_validate_move b (normalised py line)) as [ex|pos] eqn:Hv.
  - destruct (_validate_move_inl _ _ _ Hv) as [msg ->].
    assert (asked_again py b line) as Hline by (split; [done|split; [done|eauto]]).
    cbn [ending unread]. simpl in IH.
    destruct (ending (_get_player_move py b ins)) as [pos|x].
    + destruct IH as (Hlegal & skipped & line' & Hins & Hsk & Hv').
      split; [done|]. exists (line :: skipped), line'.
      split; [by rewrite Hins at 1|]. split; [by constructor|done].
    + destruct x as [e| | |]; try done.
      * destruct IH as (skipped & line' & Hins & Hsk & Hv').
        exists (line :: skipped), line'.
        split; [by rewrite Hins at 1|]. split; [by constructor|done].
      * destruct IH as (skipped & line' & Hins & Hsk & Hv').
        exists (line :: skipped), line'.
        split; [by rewrite Hins at 1|]. split; [by constructor|done].
      * destruct IH as [Hun Hall]. split; [done|]. by constructor.
  - simpl. split; [by apply (_validate_move_legal b (normalised py line))|].
    by exists [], line.
Qed.

(** X10: [_get_player_move] skips the lines the validation refuses and is
    decided by the first other line: "quit" raises [UserExit], "ff" raises
    [Forfeit], and an accepted entry returns its position, which is a blank
    cell of the grid of the board; with only refused lines it ends with
    [EOFError] at the end of the input.  It raises nothing else, and never an
    [InvalidPosition]; unless it meets the end of the input it has read the
    lines up to the decisive one and no further. *)
Theorem _get_player_move_first_decisive_line
    (py : Builtins) (b : Board) (ins : list string) :
  let r := _get_player_move py b ins in
  match ending r with
  | Return pos =>
      legal b pos ∧ length (unread r) < length ins ∧
      ∃ skipped line, ins = (skipped ++ line :: unread r)%list ∧
                      Forall (asked_again py b) skipped ∧
                      _validate_move b (normalised py line) = inr pos
  | Throw UserExit =>
      length (unread r) < length ins ∧
      ∃ skipped line, ins = (skipped ++ line :: unread r)%list ∧
                      Forall (asked_again py b) skipped ∧
                      normalised py line = "quit"
  | Throw Forfeit =>
      length (unread r) < length ins ∧
      ∃ skipped line, ins = (skipped ++ line :: unread r)%list ∧
                      Forall (asked_again py b) skipped ∧
                      normalised py line = "ff"
  | Throw EOFError => unread r = [] ∧ Forall (asked_again py b) ins
  | Throw (Exception _) => False
  end.
Proof.
  pose proof (_get_player_move_spec py b ins) as H. simpl in *.
  destruct (ending (_get_player_move py b ins)) as [pos|[e| | |]]; try done.
  - destruct H as (Hlegal & skipped & line & Hins & Hsk & Hv).
    split; [done|]. split; [by eapply read_one_shorter|]. by exists skipped, line.
  - destruct H as (skipped & line & Hins & Hsk & Hq).
    split; [by eapply read_one_shorter|]. by exists skipped, line.
  - destruct H as (skipped & line & Hins & Hsk & Hf).
    split; [by eapply read_one_shorter|]. by exists skipped, line.
Qed.

Lemma _query_replay_spec
    (py : Builtins) (rematch : bool) (b : Board) (ins : list string) :
  let r := _query_replay py rematch b ins in
  match ending r with
  | Return (answer, b') =>
      ∃ skipped line, ins = (skipped ++ line :: unread r)%list ∧
                      Forall (no_answer py) skipped ∧
                      (if answer
                       then normalised py line = "y" ∧
                            b' = (if rematch then reset_board b else b)
                       else normalised py line ∈ ["n"; "quit"] ∧ b' = b)
  | Throw EOFError => unread r = [] ∧ Forall (no_answer py) ins
  | Throw _ => False
  end.
Proof.
  induction ins as [|line ins IH]; [by split|].
  cbn [_query_replay]. fold (normalised py line).
  destruct (decide (normalised py line = "y")) as [Hy|Hy].
  { simpl. by exists [], line. }
  destruct (decide (normalised py line ∈ ["n"; "quit"])) as [Hn|Hn].
  { simpl. by exists [], line. }
  assert (no_answer py line) as Hline.
  { unfold no_answer. intros [?|?]%elem_of_cons; done. }
  cbn [ending unread]. simpl in IH.
  destruct (ending (_query_replay py rematch b ins)) as [[answer b']|x].
  - destruct IH as (skipped & line' & Hins & Hsk & Hans).
    exists (line :: skipped), line'.
    split; [by rewrite Hins at 1|]. split; [by constructor|done].
  - destruct x as [e| | |]; try done.
    destruct IH as [Hun Hall]. split; [done|]. by constructor.
Qed.

(** X11: [_query_replay] skips the lines that are none of "y", "n" and
    "quit" and answers with the first that is: [True] for "y", [False] for
    the two others.  The board is reset exactly when a rematch was asked for
    and the answer is "y"; otherwise it is left as it was.  The only
    exception is the [EOFError] of an input without an answer. *)
Theorem _query_replay_first_answer
    (py : Builtins) (rematch : bool) (b : Board) (ins : list string) :
  let r := _query_replay py rematch b ins in
  match ending r with
  | Return (answer, b') =>
      length (unread r) < length ins ∧
      ∃ skipped line, ins = (skipped ++ line :: unread r)%list ∧
                      Forall (no_answer py) skipped ∧
                      (if answer
                       then normalised py line = "y" ∧
                            b' = (if rematch then reset_board b else b)
                       else normalised py line ∈ ["n"; "quit"] ∧ b' = b)
  | Throw EOFError => unread r = [] ∧ Forall (no_answer py) ins
  | Throw _ => False
  end.
Proof.
  pose proof (_query_replay_spec py rematch b ins) as H. simpl in *.
  destruct (ending (_query_replay py rematch b ins)) as [[answer b']|x]; [|done].
  destruct H as (skipped & line & Hins & Hsk & Hans).
  split; [by eapply read_one_shorter|]. by exists skipped, line.
Qed.

(** ** The loops of [main] *)

Lemma after_game_spec (py : Builtins) (message : string) (b : Board)
    (ins out : list string) :
  let r := after_game py message b ins out in
  match ending r with
  | Return Break => length (unread r) < length ins
  | Return (Again _) => False
  | Throw UserExit => True
  | Throw EOFError => unread r = []
  | Throw _ => False
  end.
Proof.
  unfold after_game.
  pose proof (_query_replay_spec py false b ins) as Hq. simpl in Hq.
  destruct (ending (_query_replay py false b ins)) as [[[|] b']|x]; simpl.
  - destruct Hq as (skipped & line & Hins & _). by eapply read_one_shorter.
  - done.
  - destruct x; try done. by destruct Hq.
Qed.

(** A validated position on a well-formed board: the write succeeds. *)
Lemma move_legal_no_error (b : Board) (pos : Position) :
  well_formed b → legal b pos →
  (move b pos).2 ≠ Raise IndexError ∧
  ∀ msg, (move b pos).2 ≠ Raise (InvalidPosition msg).
Proof.
  intros Hwf [Hrange _]. destruct (well_formed_mark b Hwf) as [mark Hmark].
  destruct Hwf as [Hg _].
  destruct (grid_set_in_range (_grid b) pos mark Hg Hrange) as (g & Hset & _).
  destruct (move_written b pos mark g Hmark Hset) as (_ & _ & Hne).
  split; [done|]. intros msg Hc.
  destruct (move b pos) as [b' c] eqn:Hm. simpl in Hc. subst c.
  by apply (move_raises _ _ _ _ Hm _ eq_refl msg).
Qed.

(** One pass through the body of the inner loop, from a well-formed
    board. *)
Lemma round_body_spec (py : Builtins) (b : Board) (ins : list string) :
  well_formed b →
  let r := round_body py b ins in
  match ending r with
  | Return (Again b') =>
      well_formed b' ∧ _players b' = _players b ∧ length (unread r) < length ins
  | Return Break => length (unread r) < length ins
  | Throw UserExit => True
  | Throw EOFError => unread r = []
  | Throw _ => False
  end.
Proof.
  intros Hwf. unfold round_body.
  pose proof (_get_player_move_spec py b ins) as Hr. simpl in Hr.
  destruct (ending (_get_player_move py b ins)) as [pos|x].
  - destruct Hr as (Hlegal & skipped & line & Hins & _ & _).
    apply read_one_shorter in Hins.
    destruct (move_legal_no_error b pos Hwf Hlegal) as [Hni Hnv].
    pose proof (move_well_formed b pos Hwf) as Hwf'.
    pose proof (move_players b pos) as Hp'.
    destruct (move b pos) as [b' c]. simpl in *.
    destruct c as [|ex]; [done|].
    destruct ex as [msg| |mark|].
    + by destruct (Hnv msg).
    + pose proof (after_game_spec py "Game Over!" b'
                    (unread (_get_player_move py b ins))
                    (printed (_get_player_move py b ins) ++ move_display b pos)%list)
        as Ha.
      simpl in Ha.
      destruct (ending (after_game py _ b' _ _)) as [[b2|]|x]; try done. lia.
    + pose proof (after_game_spec py (win_message py mark) b'
                    (unread (_get_player_move py b ins))
                    (printed (_get_player_move py b ins) ++ move_display b pos)%list)
        as Ha.
      simpl in Ha.
      destruct (ending (after_game py _ b' _ _)) as [[b2|]|x]; try done. lia.
    + done.
  - destruct x as [e| | |]; try done.
    + destruct Hr as (skipped & line & Hins & _ & _).
      apply read_one_shorter in Hins.
      pose proof (_query_replay_spec py true b
                    (unread (_get_player_move py b ins))) as Hq.
      simpl in Hq.
      destruct (ending (_query_replay py true b _)) as [[[|] b']|x]; simpl.
      * destruct Hq as (skipped' & line' & Hins' & _ & _ & ->).
        apply read_one_shorter in Hins'.
        split; [split; [apply reset_grid_3x3|simpl; lia]|]. split; [done|]. lia.
      * done.
      * destruct x; try done. by destruct Hq.
    + by destruct Hr.
Qed.

Lemma play_round_total (py : Builtins) (fuel : nat) (b : Board) (ins : list string) :
  well_formed b → length ins < fuel →
  ∃ s, play_round py fuel b ins = Some s ∧
       match ending s with
       | Return _ => length (unread s) < length ins
       | Throw UserExit => True
       | Throw EOFError => unread s = []
       | Throw _ => False
       end.
Proof.
  revert b ins. induction fuel as [|fuel IH]; intros b ins Hwf Hlen; [lia|].
  cbn [play_round].
  pose proof (round_body_spec py b ins Hwf) as Hr. simpl in Hr.
  destruct (ending (round_body py b ins)) as [[b'|]|x] eqn:He.
  - destruct Hr as (Hwf' & _ & Hshort).
    destruct (IH b' (unread (round_body py b ins)) Hwf' ltac:(lia)) as (s & -> & Hs).
    simpl. eexists. split; [done|]. simpl.
    destruct (ending s) as [[]|x]; [lia|done].
  - eexists. split; [done|]. done.
  - eexists. split; [done|]. done.
Qed.

Lemma _get_players_shorter (ins : list string) (players : Players) :
  ending (_get_players ins) = Return players →
  length (unread (_get_players ins)) < length ins.
Proof.
  unfold _get_players. intros He.
  pose proof (_get_players_loop_spec None ins) as H.
  rewrite He in H. destruct players as [mark1 mark2].
  destruct H as (pre & Hins & _ & _ & Hlast).
  destruct pre as [|x pre]; [done|].
  rewrite Hins at 2. rewrite length_app. simpl. lia.
Qed.

Lemma main_loop_total (py : Builtins) (fuel : nat) (ins : list string) :
  length ins < fuel →
  ∃ t, main_loop py fuel ins = Some t ∧
       (ending t = Throw UserExit ∨ (ending t = Throw EOFError ∧ unread t = [])).
Proof.
  revert ins. induction fuel as [|fuel IH]; intros ins Hlen; [lia|].
  cbn [main_loop].
  pose proof (_get_players_loop_spec None ins) as Hp. fold (_get_players ins) in Hp.
  pose proof (_get_players_shorter ins) as Hshort.
  destruct (ending (_get_players ins)) as [players|x].
  - specialize (Hshort players eq_refl).
    destruct (play_round_total py fuel (Board_init players) (unread (_get_players ins))
                (Board_init_well_formed players) ltac:(lia)) as (s & -> & Hs).
    simpl. destruct (ending s) as [[]|x] eqn:He.
    + destruct (IH (unread s) ltac:(lia)) as (t & -> & Ht).
      simpl. eexists. split; [done|]. done.
    + eexists. split; [done|]. simpl.
      destruct x as [e| | |]; try done; [by left|by right].
  - eexists. split; [done|]. simpl.
    destruct x as [e| | |]; try done; [by left|right; split; [done|apply Hp]].
Qed.

(** More fuel than needed changes nothing. *)
Lemma play_round_fuel (py : Builtins) (fuel fuel' : nat) (b : Board)
    (ins : list string) (s : Run unit) :
  play_round py fuel b ins = Some s → fuel ≤ fuel' →
  play_round py fuel' b ins = Some s.
Proof.
  revert fuel' b ins s. induction fuel as [|fuel IH]; intros fuel' b ins s; [done|].
  intros Hs Hle. destruct fuel' as [|fuel']; [lia|].
  cbn [play_round] in *.
  destruct (ending (round_body py b ins)) as [[b'|]|x]; [|done|done].
  destruct (play_round py fuel b' (unread (round_body py b ins))) as [s0|] eqn:H0;
    [|done].
  by rewrite (IH fuel' _ _ _ H0 ltac:(lia)).
Qed.

Lemma main_loop_fuel (py : Builtins) (fuel fuel' : nat)
    (ins : list string) (t : Run Empty_set) :
  main_loop py fuel ins = Some t → fuel ≤ fuel' →
  main_loop py fuel' ins = Some t.
Proof.
  revert fuel' ins t. induction fuel as [|fuel IH]; intros fuel' ins t; [done|].
  intros Ht Hle. destruct fuel' as [|fuel']; [lia|].
  cbn [main_loop] in *.
  destruct (ending (_get_players ins)) as [players|x]; [|done].
  destruct (play_round py fuel (Board_init players) (unread (_get_players ins)))
    as [s|] eqn:Hs; [|done].
  rewrite (play_round_fuel py fuel fuel' _ _ _ Hs ltac:(lia)).
  simpl in *. destruct (ending s) as [[]|x]; [|done].
  destruct (main_loop py fuel (unread s)) as [t0|] eqn:H0; [|done].
  by rewrite (IH fuel' _ _ H0 ltac:(lia)).
Qed.

(** X13: on every finite input [main] comes to an end, and it ends by
    raising: [UserExit], or the [EOFError] of [input] once every line has
    been read.  No [IndexError], [InvalidPosition], [Forfeit], [Win] or
    [GameOver] leaves it, and it does not return.  The number of passes
    allowed to the loops does not matter once it exceeds the number of
    lines. *)
Theorem main_ends_by_UserExit_or_EOFError (py : Builtins) (ins : list string) :
  (∃ r, main py ins = Some r ∧
        (ending r = Throw UserExit ∨ (ending r = Throw EOFError ∧ unread r = []))) ∧
  ∀ fuel, length ins < fuel →
          main_loop py fuel ins = main_loop py (S (length ins)) ins.
Proof.
  destruct (main_loop_total py (S (length ins)) ins ltac:(lia)) as (t & Ht & Hend).
  split.
  - unfold main. rewrite Ht. simpl. eexists. split; [done|]. done.
  - intros fuel Hlen. rewrite Ht.
    apply (main_loop_fuel py (S (length ins)) fuel); [done|lia].
Qed.

(** ** The boards of the rounds *)

Lemma round_step_in_play (py : Builtins) (b b' : Board) (ins ins' : list string)
    (entries : list string) :
  play (Board_init (_players b)) entries = Some b →
  round_step py (b, ins) (b', ins') →
  _players b' = _players b ∧
  ∃ entries', play (Board_init (_players b)) entries' = Some b'.
Proof.
  intros Hplay [Hend _]. simpl in Hend. unfold round_body in Hend.
  pose proof (_get_player_move_spec py b ins) as Hr. simpl in Hr.
  destruct (ending (_get_player_move py b ins)) as [pos|x].
  - destruct Hr as (_ & skipped & line & _ & _ & Hv).
    pose proof (move_players b pos) as Hp.
    destruct (move b pos) as [b1 c] eqn:Hm. simpl in Hp.
    destruct c as [|ex].
    + injection Hend as <-. split; [done|].
      exists (entries ++ [normalised py line])%list.
      rewrite play_snoc, Hplay. simpl.
      by rewrite (apply_move_validated _ _ _ Hv), Hm.
    + exfalso. destruct ex as [msg| |mark|]; try done.
      * pose proof (after_game_spec py "Game Over!" b1
                      (unread (_get_player_move py b ins))
                      (printed (_get_player_move py b ins) ++ move_display b pos)%list)
          as Ha.
        simpl in Ha. rewrite Hend in Ha. done.
      * pose proof (after_game_spec py (win_message py mark) b1
                      (unread (_get_player_move py b ins))
                      (printed (_get_player_move py b ins) ++ move_display b pos)%list)
          as Ha.
        simpl in Ha. rewrite Hend in Ha. done.
  - destruct x as [e| | |]; try done.
    pose proof (_query_replay_spec py true b (unread (_get_player_move py b ins)))
      as Hq.
    simpl in Hq.
    destruct (ending (_query_replay py true b _)) as [[[|] b2]|x]; try done.
    destruct Hq as (_ & _ & _ & _ & _ & ->). injection Hend as <-.
    split; [done|]. by exists [].
Qed.

(** X12: the inner loop of [main] only ever runs its body on a board of a
    game in progress.  From the fresh board of a round, every board the body
    is run on keeps the players of the round and is reached from the fresh
    board by entries that were all accepted and moves that all returned: a
    rematch starts again from the fresh board and no move is made on a board
    after [Win] or [GameOver].  With two distinct marks that are not blank
    it is a board [in_progress]. *)
Theorem main_rounds_stay_in_play
    (py : Builtins) (players : Players) (ins : list string)
    (b' : Board) (ins' : list string) :
  rtc (round_step py) (Board_init players, ins) (b', ins') →
  _players b' = players ∧
  (∃ entries, play (Board_init players) entries = Some b') ∧
  (players.1 ≠ " " → players.2 ≠ " " → players.1 ≠ players.2 →
   in_progress players b').
Proof.
  intros Hrtc.
  assert (_players b' = players ∧
          ∃ entries, play (Board_init players) entries = Some b') as [Hp Hplay].
  { apply (rtc_ind_r (R := round_step py)
             (λ s', _players s'.1 = players ∧
                    ∃ entries, play (Board_init players) entries = Some s'.1)
             (Board_init players, ins)) with (z := (b', ins')); [| |exact Hrtc].
    - split; [done|]. by exists [].
    - intros [b1 ins1] [b2 ins2] _ Hstep [Hp1 [entries Hplay1]]. simpl in *.
      rewrite <- Hp1 in Hplay1.
      destruct (round_step_in_play py b1 b2 ins1 ins2 entries Hplay1 Hstep)
        as [Hp2 [entries' Hplay2]].
      rewrite Hp1 in Hp2, Hplay2. eauto. }
  split; [done|]. split; [done|].
  intros H1 H2 H3. destruct Hplay as [entries Hplay].
  by apply (play_in_progress players H1 H2 H3 b' entries).
Qed.

(** ** The display *)



(** ** Concrete runs *)

(** The diagonal of "X" completed through [(-1, -1)]: the move returns. *)
Lemma move_off_the_grid_never_wins_witness :
  let b := XO_board [["X"; "O"; "O"]; [" "; "X"; " "]; [" "; " "; " "]] 0 4 in
  (¬ in_range (-1, -1)%Z) ∧
  completed (_grid (move b (-1, -1)%Z).1) "X" ∧
  (move b (-1, -1)%Z).2 ≠ Raise (Win "X").
Proof.
  intros b.
  assert (¬ in_range (-1, -1)%Z) as Hout by (intros [[? _] _]; simpl in *; lia).
  split; [exact Hout|]. split.
  - split; [discriminate|]. apply (bool_decide_unpack _). vm_compute. exact I.
  - exact (move_off_the_grid_never_wins b (-1, -1)%Z Hout "X").
Defined.

(** A board built with a move off the grid, a move that raises and a
    reset. *)
Lemma reachable_boards_are_well_formed_witness :
  let b := (move (reset_board (move (move (Board_init XO) (-1, 0)%Z).1 (7, 7)%Z).1)
                 (1, 1)%Z).1 in
  reachable b ∧ grid_3x3 (_grid b) ∧ (_turn b = 0 ∨ _turn b = 1).
Proof.
  intros b.
  assert (reachable b) as Hr by (repeat constructor).
  split; [exact Hr|]. exact (reachable_boards_are_well_formed b Hr).
Defined.


(** "O" played on the cell of "X". *)
Lemma move_overwrites_and_counts_witness :
  let b := XO_board [["X"; " "; " "]; [" "; " "; " "]; [" "; " "; " "]] 1 1 in
  (well_formed b ∧ in_range (0, 0)%Z ∧ cell (_grid b) (0, 0)%Z ≠ " " ∧
   players_at (_players b) (_turn b) = Some "O" ∧ "O" ≠ " ") ∧
  cell (_grid (move b (0, 0)%Z).1) (0, 0)%Z = "O" ∧
  occupied (_grid (move b (0, 0)%Z).1) = occupied (_grid b) ∧
  _filled_squares (move b (0, 0)%Z).1 = _filled_squares b + 1.
Proof.
  intros b.
  assert (well_formed b) as Hwf by (apply (bool_decide_unpack _); vm_compute; exact I).
  assert (in_range (0, 0)%Z) as Hr by (apply (bool_decide_unpack _); vm_compute; exact I).
  assert (cell (_grid b) (0, 0)%Z ≠ " ") as Hc by (vm_compute; discriminate).
  assert (players_at (_players b) (_turn b) = Some "O") as Hm by reflexivity.
  assert ("O" ≠ " ") as Hnb by discriminate.
  split; [exact (conj Hwf (conj Hr (conj Hc (conj Hm Hnb))))|].
  exact (move_overwrites_and_counts b (0, 0)%Z "O" Hwf Hr Hc Hm Hnb).
Defined.

(** The game that "X" wins with the fifth move. *)
Lemma game_takes_five_to_nine_moves_witness :
  let b := XO_board [["X"; "X"; " "]; ["O"; "O"; " "]; [" "; " "; " "]] 0 4 in
  play (Board_init XO) ["1"; "5"; "2"; "4"] = Some b ∧
  _filled_squares b = 4 ∧ 4 ≤ 8.
Proof.
  intros b.
  assert (play (Board_init XO) ["1"; "5"; "2"; "4"] = Some b) as Hplay
    by (vm_compute; reflexivity).
  split; [exact Hplay|].
  destruct (game_takes_five_to_nine_moves XO _ b Hplay) as (Hf & H8 & _).
  split; [exact Hf|exact H8].
Defined.

(** Eight moves played: one entry is left. *)
Lemma game_in_progress_has_a_move_witness :
  let b := XO_board [["X"; "O"; "X"]; ["X"; "O"; "O"]; ["O"; "X"; " "]] 0 8 in
  play (Board_init XO) ["1"; "2"; "3"; "5"; "4"; "6"; "8"; "7"] = Some b ∧
  ∃ entry pos, _validate_move b entry = inr pos.
Proof.
  intros b.
  assert (play (Board_init XO) ["1"; "2"; "3"; "5"; "4"; "6"; "8"; "7"] = Some b)
    as Hplay by (vm_compute; reflexivity).
  split; [exact Hplay|].
  exact (game_in_progress_has_a_move XO _ b Hplay).
Defined.

(** Two passes of the round: a move, then a forfeit with a rematch. *)
Lemma main_rounds_stay_in_play_witness :
  let moved := XO_board [[" "; " "; " "]; [" "; "X"; " "]; [" "; " "; " "]] 1 1 in
  rtc (round_step as_typed)
      (Board_init XO, ["5"; "ff"; "y"; "quit"]) (Board_init XO, ["quit"]) ∧
  ∃ entries, play (Board_init XO) entries = Some (Board_init XO).
Proof.
  intros moved.
  assert (rtc (round_step as_typed)
              (Board_init XO, ["5"; "ff"; "y"; "quit"]) (Board_init XO, ["quit"]))
    as Hrtc.
  { apply rtc_l with (moved, ["ff"; "y"; "quit"]).
    { split; vm_compute; reflexivity. }
    apply rtc_l with (Board_init XO, ["quit"]).
    { split; vm_compute; reflexivity. }
    apply rtc_refl. }
  split; [exact Hrtc|].
  exact (proj1 (proj2 (main_rounds_stay_in_play as_typed XO _ _ _ Hrtc))).
Defined.


(** * Leaving the game with "quit" *)

Lemma _get_players_loop_more (first : option Player) (ins extra : list string) :
  ending (_get_players_loop first ins) ≠ Throw EOFError →
  unchanged_by (_get_players_loop first) ins extra.
Proof.
  unfold unchanged_by. revert first.
  induction ins as [|player ins IH]; intros first; [done|].
  cbn [app _get_players_loop].
  destruct (decide (player = "quit")); [done|].
  destruct (decide (py_len player ≠ 1)); [apply IH|].
  destruct first; [done|apply IH].
Qed.

Lemma _get_players_loop_quit (first : option Player) (ins rest : list string) :
  ending (_get_players_loop first ins) = Throw EOFError →
  ending (_get_players_loop first (ins ++ "quit" :: rest)%list) = Throw UserExit ∧
  unread (_get_players_loop first (ins ++ "quit" :: rest)%list) = rest.
Proof.
  revert first. induction ins as [|player ins IH]; intros first.
  - intros _. cbn [app _get_players_loop]. by rewrite decide_True.
  - cbn [app _get_players_loop].
    destruct (decide (player = "quit")); [done|].
    destruct (decide (py_len player ≠ 1)); [apply IH|].
    destruct first; [done|apply IH].
Qed.

Section quit.
Variable py : Builtins.
Hypothesis quit_as_typed : normalised py "quit" = "quit".

Lemma _get_player_move_more (b : Board) (ins extra : list string) :
  ending (_get_player_move py b ins) ≠ Throw EOFError →
  unchanged_by (_get_player_move py b) ins extra.
Proof.
  unfold unchanged_by. induction ins as [|line ins IH]; [done|].
  cbn [app _get_player_move].
  destruct (decide (_ = "quit")); [done|].
  destruct (decide (_ = "ff")); [done|].
  destruct (_validate_move b _) as [[msg| | |]|pos]; try done; apply IH.
Qed.

Lemma _get_player_move_quit (b : Board) (ins rest : list string) :
  ending (_get_player_move py b ins) = Throw EOFError →
  ending (_get_player_move py b (ins ++ "quit" :: rest)%list) = Throw UserExit ∧
  unread (_get_player_move py b (ins ++ "quit" :: rest)%list) = rest.
Proof using All.
  induction ins as [|line ins IH].
  - intros _. cbn [app _get_player_move]. fold (normalised py "quit").
    by rewrite decide_True.
  - cbn [app _get_player_move].
    destruct (decide (_ = "quit")); [done|].
    destruct (decide (_ = "ff")); [done|].
    destruct (_validate_move b _) as [[msg| | |]|pos]; try done; apply IH.
Qed.

Lemma _query_replay_more (rematch : bool) (b : Board) (ins extra : list string) :
  ending (_query_replay py rematch b ins) ≠ Throw EOFError →
  unchanged_by (_query_replay py rematch b) ins extra.
Proof.
  unfold unchanged_by. induction ins as [|line ins IH]; [done|].
  cbn [app _query_replay].
  destruct (decide (_ = "y")); [done|].
  destruct (decide (_ ∈ _)); [done|]. apply IH.
Qed.

Lemma _query_replay_quit (rematch : bool) (b : Board) (ins rest : list string) :
  ending (_query_replay py rematch b ins) = Throw EOFError →
  ending (_query_replay py rematch b (ins ++ "quit" :: rest)%list) = Return (false, b) ∧
  unread (_query_replay py rematch b (ins ++ "quit" :: rest)%list) = rest.
Proof using All.
  induction ins as [|line ins IH].
  - intros _. cbn [app _query_replay]. fold (normalised py "quit").
    rewrite quit_as_typed. rewrite decide_False by discriminate.
    rewrite decide_True; [done|]. by right; left.
  - cbn [app _query_replay].
    destruct (decide (_ = "y")); [done|].
    destruct (decide (_ ∈ _)); [done|]. apply IH.
Qed.

Lemma after_game_more (message : string) (b : Board) (out out' : list string)
    (ins extra : list string) :
  ending (after_game py message b ins out) ≠ Throw EOFError →
  ending (after_game py message b (ins ++ extra)%list out')
  = ending (after_game py message b ins out) ∧
  unread (after_game py message b (ins ++ extra)%list out')
  = (unread (after_game py message b ins out) ++ extra)%list.
Proof.
  unfold after_game. intros Hne.
  destruct (_query_replay_more false b ins extra) as [He Hu].
  { intros Hq. apply Hne. by rewrite Hq. }
  rewrite He, Hu.
  by destruct (ending (_query_replay py false b ins)) as [[[|] b']|x].
Qed.

Lemma after_game_quit (message : string) (b : Board) (out out' : list string)
    (ins rest : list string) :
  ending (after_game py message b ins out) = Throw EOFError →
  ending (after_game py message b (ins ++ "quit" :: rest)%list out') = Throw UserExit ∧
  unread (after_game py message b (ins ++ "quit" :: rest)%list out') = rest.
Proof using All.
  unfold after_game. intros Heof.
  assert (ending (_query_replay py false b ins) = Throw EOFError) as Hq.
  { destruct (ending (_query_replay py false b ins)) as [[[|] b']|x];
      simpl in Heof; [done|done|by injection Heof as ->]. }
  destruct (_query_replay_quit false b ins rest Hq) as [-> ->]. done.
Qed.

Lemma round_body_more (b : Board) (ins extra : list string) :
  ending (round_body py b ins) ≠ Throw EOFError →
  unchanged_by (round_body py b) ins extra.
Proof.
  unfold unchanged_by, round_body. intros Hne.
  destruct (ending (_get_player_move py b ins)) as [pos|x] eqn:Hr.
  - destruct (_get_player_move_more b ins extra) as [He Hu]; [by rewrite Hr|].
    rewrite He, Hu, Hr. destruct (move b pos) as [b' c].
    destruct c as [|[msg| |mark|]]; try done.
    + by apply after_game_more.
    + by apply after_game_more.
  - destruct x as [e| | |]; try done.
    + destruct (_get_player_move_more b ins extra) as [He Hu]; [by rewrite Hr|].
      by rewrite He, Hu, Hr.
    + destruct (_get_player_move_more b ins extra) as [He Hu]; [by rewrite Hr|].
      by rewrite He, Hu, Hr.
    + destruct (_get_player_move_more b ins extra) as [He Hu]; [by rewrite Hr|].
      rewrite He, Hu, Hr.
      destruct (_query_replay_more true b (unread (_get_player_move py b ins)) extra)
        as [He' Hu'].
      { intros Hq. apply Hne. by rewrite Hq. }
      rewrite He', Hu'.
      by destruct (ending (_query_replay py true b _)) as [[[|] b']|x].
Qed.

Lemma round_body_quit (b : Board) (ins rest : list string) :
  ending (round_body py b ins) = Throw EOFError →
  ending (round_body py b (ins ++ "quit" :: rest)%list) = Throw UserExit ∧
  unread (round_body py b (ins ++ "quit" :: rest)%list) = rest.
Proof using All.
  unfold round_body. intros Heof.
  destruct (ending (_get_player_move py b ins)) as [pos|x] eqn:Hr.
  - destruct (_get_player_move_more b ins ("quit" :: rest)) as [He Hu];
      [by rewrite Hr|].
    rewrite He, Hu, Hr. destruct (move b pos) as [b' c].
    destruct c as [|[msg| |mark|]]; try done.
    + by eapply after_game_quit.
    + by eapply after_game_quit.
  - destruct x as [e| | |]; try done.
    + destruct (_get_player_move_more b ins ("quit" :: rest)) as [He Hu];
        [by rewrite Hr|].
      rewrite He, Hu, Hr.
      assert (ending (_query_replay py true b (unread (_get_player_move py b ins)))
              = Throw EOFError) as Hq.
      { destruct (ending (_query_replay py true b _)) as [[[|] b']|x];
          simpl in Heof; [done|done|by injection Heof as ->]. }
      destruct (_query_replay_quit true b _ rest Hq) as [-> ->]. done.
    + destruct (_get_player_move_quit b ins rest Hr) as [-> ->]. done.
Qed.

Lemma play_round_more (fuel : nat) (b : Board) (ins extra : list string) (s : Run unit) :
  play_round py fuel b ins = Some s → ending s ≠ Throw EOFError →
  ∃ s', play_round py fuel b (ins ++ extra)%list = Some s' ∧
        ending s' = ending s ∧ unread s' = (unread s ++ extra)%list.
Proof.
  revert b ins s. induction fuel as [|fuel IH]; intros b ins s; [done|].
  cbn [play_round]. intros Hs Hne.
  assert (ending (round_body py b ins) ≠ Throw EOFError) as Hne'.
  { intros Hr. rewrite Hr in Hs. injection Hs as <-. done. }
  destruct (round_body_more b ins extra Hne') as [He Hu]. rewrite He, Hu.
  destruct (ending (round_body py b ins)) as [[b'|]|x].
  - destruct (play_round py fuel b' (unread (round_body py b ins))) as [s0|] eqn:H0;
      [|done].
    injection Hs as <-. simpl in Hne.
    destruct (IH _ _ _ H0 Hne) as (s0' & -> & He0 & Hu0).
    simpl. eauto.
  - injection Hs as <-. eauto.
  - injection Hs as <-. eauto.
Qed.

Lemma play_round_quit (fuel : nat) (b : Board) (ins rest : list string) (s : Run unit) :
  play_round py fuel b ins = Some s → ending s = Throw EOFError →
  ∃ s', play_round py fuel b (ins ++ "quit" :: rest)%list = Some s' ∧
        ending s' = Throw UserExit ∧ unread s' = rest.
Proof using All.
  revert b ins s. induction fuel as [|fuel IH]; intros b ins s; [done|].
  cbn [play_round]. intros Hs Heof.
  destruct (ending (round_body py b ins)) as [[b'|]|x] eqn:Hr.
  - destruct (round_body_more b ins ("quit" :: rest)) as [He Hu]; [by rewrite Hr|].
    rewrite He, Hu, Hr.
    destruct (play_round py fuel b' (unread (round_body py b ins))) as [s0|] eqn:H0;
      [|done].
    injection Hs as <-. simpl in Heof.
    destruct (IH _ _ _ H0 Heof) as (s0' & -> & He0 & Hu0).
    simpl. eauto.
  - injection Hs as <-. done.
  - injection Hs as <-. simpl in Heof. injection Heof as ->.
    destruct (round_body_quit b ins rest Hr) as [He Hu].
    rewrite He. eexists. split; [done|]. done.
Qed.

Lemma main_loop_quit (fuel : nat) (ins rest : list string) (t : Run Empty_set) :
  main_loop py fuel ins = Some t → ending t = Throw EOFError →
  ∃ t', main_loop py fuel (ins ++ "quit" :: rest)%list = Some t' ∧
        ending t' = Throw UserExit ∧ unread t' = rest.
Proof using All.
  revert ins t. induction fuel as [|fuel IH]; intros ins t; [done|].
  cbn [main_loop]. unfold _get_players. intros Ht Heof.
  destruct (ending (_get_players_loop None ins)) as [players|x] eqn:Hp.
  - destruct (_get_players_loop_more None ins ("quit" :: rest)) as [He Hu];
      [by rewrite Hp|].
    rewrite He, Hu, Hp.
    destruct (play_round py fuel (Board_init players)
                (unread (_get_players_loop None ins))) as [s|] eqn:Hs; [|done].
    simpl in Ht. destruct (ending s) as [[]|x] eqn:Hes.
    + destruct (play_round_more fuel _ _ ("quit" :: rest) s Hs) as (s' & -> & He' & Hu');
        [by rewrite Hes|].
      simpl. rewrite He', Hes, Hu'.
      destruct (main_loop py fuel (unread s)) as [t0|] eqn:H0; [|done].
      injection Ht as <-. simpl in Heof.
      destruct (IH _ _ H0 Heof) as (t0' & -> & He0 & Hu0).
      simpl. eauto.
    + injection Ht as <-. simpl in Heof. injection Heof as ->.
      destruct (play_round_quit fuel _ _ rest s Hs Hes) as (s' & -> & He' & Hu').
      simpl. rewrite He'. eauto.
  - injection Ht as <-. simpl in Heof. injection Heof as ->.
    destruct (_get_players_loop_quit None ins rest Hp) as [He Hu].
    rewrite He. eauto.
Qed.

(** X15: "quit" leaves the game at any prompt.  Whatever has been typed,
    when [main] is waiting for a line (it has read the whole input and would
    end with [EOFError]), the line "quit" next makes it raise [UserExit]
    with the lines after it left unread.  The lowering and stripping are
    assumed to leave "quit" as it is. *)
Theorem quit_at_any_prompt_exits (ins rest : list string) :
  (∃ r, main py ins = Some r ∧ ending r = Throw EOFError) →
  ∃ r', main py (ins ++ "quit" :: rest)%list = Some r' ∧
        ending r' = Throw UserExit ∧ unread r' = rest.
Proof using All.
  intros (r & Hmain & Heof). unfold main in *.
  destruct (main_loop py (S (length ins)) ins) as [t|] eqn:Ht; [|done].
  injection Hmain as <-. simpl in Heof.
  destruct (main_loop_quit _ _ rest t Ht Heof) as (t' & Ht' & He & Hu).
  rewrite (main_loop_fuel py (S (length ins)) _ _ t' Ht').
  - simpl. eauto.
  - rewrite length_app. lia.
Qed.
End quit.

(** The prompt for the second mark, then "quit". *)
Lemma quit_at_any_prompt_exits_witness :
  (normalised as_typed "quit" = "quit" ∧
   ∃ r, main as_typed ["X"] = Some r ∧ ending r = Throw EOFError) ∧
  ∃ r', main as_typed (["X"] ++ "quit" :: ["O"])%list = Some r' ∧
        ending r' = Throw UserExit ∧ unread r' = ["O"].
Proof.
  assert (normalised as_typed "quit" = "quit") as Hq by reflexivity.
  assert (∃ r, main as_typed ["X"] = Some r ∧ ending r = Throw EOFError) as Hr.
  { eexists. split; [reflexivity|reflexivity]. }
  split; [exact (conj Hq Hr)|].
  exact (quit_at_any_prompt_exits as_typed Hq ["X"] ["O"] Hr).
Defined.

